(** * Audio feature extraction of the geometric audio visualizer

    A shallow embedding of [AudioAnalyzer] (src/audio/AudioEngine.js) and
    the properties of its feature extractors.

    Numbers.  A JavaScript number is modelled as an extended real: a finite
    real, one of the two infinities, or NaN.  Finite arithmetic is exact
    (rounding of IEEE doubles and the sign of zero are not modelled); the
    special values follow IEEE 754, so that an unguarded division by zero is
    visible in the model as NaN or an infinity.

    Buffers.  A [Uint8Array] is a list of integers (each in 0..255), a
    [Float32Array] a list of reals.  Reading outside a typed array gives
    [undefined], which every numeric operator turns into NaN. *)

From Stdlib Require Import Reals ZArith List Lia Lra Bool Zfloor.
Import ListNotations.

Open Scope R_scope.

(* ================================================================== *)
(** ** JavaScript numbers *)

Module JS.

Inductive number : Type :=
| Fin (r : R)
| PInf
| NInf
| NaN.

(** Sign of an infinity scaled by a finite factor ([Infinity * 0] is NaN). *)
Definition scale_inf (pos : bool) (r : R) : number :=
  if Rlt_dec 0 r then (if pos then PInf else NInf)
  else if Rlt_dec r 0 then (if pos then NInf else PInf)
  else NaN.

Definition add (x y : number) : number :=
  match x, y with
  | NaN, _ | _, NaN => NaN
  | Fin a, Fin b => Fin (a + b)
  | PInf, NInf | NInf, PInf => NaN
  | PInf, _ | _, PInf => PInf
  | NInf, _ | _, NInf => NInf
  end.

Definition neg (x : number) : number :=
  match x with
  | Fin a => Fin (- a)
  | PInf => NInf
  | NInf => PInf
  | NaN => NaN
  end.

Definition sub (x y : number) : number := add x (neg y).

Definition mul (x y : number) : number :=
  match x, y with
  | NaN, _ | _, NaN => NaN
  | Fin a, Fin b => Fin (a * b)
  | PInf, Fin r | Fin r, PInf => scale_inf true r
  | NInf, Fin r | Fin r, NInf => scale_inf false r
  | PInf, PInf | NInf, NInf => PInf
  | PInf, NInf | NInf, PInf => NInf
  end.

(** [x / y]: a finite quotient when the divisor is a nonzero finite number;
    [0 / 0] is NaN and [a / 0] an infinity of the sign of [a]. *)
Definition div (x y : number) : number :=
  match x, y with
  | NaN, _ | _, NaN => NaN
  | Fin a, Fin b =>
      if Req_dec_T b 0 then
        (if Rlt_dec 0 a then PInf else if Rlt_dec a 0 then NInf else NaN)
      else Fin (a / b)
  | Fin _, (PInf | NInf) => Fin 0
  | PInf, Fin b => if Rlt_dec b 0 then NInf else PInf
  | NInf, Fin b => if Rlt_dec b 0 then PInf else NInf
  | (PInf | NInf), (PInf | NInf) => NaN
  end.

(** [x > y]; every comparison with NaN is false. *)
Definition gt (x y : number) : bool :=
  match x, y with
  | Fin a, Fin b => if Rlt_dec b a then true else false
  | PInf, (Fin _ | NInf) => true
  | Fin _, NInf => true
  | _, _ => false
  end.

Definition lt (x y : number) : bool := gt y x.

(** [x === y] on numbers; NaN equals nothing. *)
Definition eqb (x y : number) : bool :=
  match x, y with
  | Fin a, Fin b => if Req_dec_T a b then true else false
  | PInf, PInf | NInf, NInf => true
  | _, _ => false
  end.

(** [Math.abs], [Math.sqrt], [Math.floor]. *)
Definition abs (x : number) : number :=
  match x with
  | Fin a => Fin (Rabs a)
  | PInf | NInf => PInf
  | NaN => NaN
  end.

Definition sqrt (x : number) : number :=
  match x with
  | Fin a => if Rlt_dec a 0 then NaN else Fin (R_sqrt.sqrt a)
  | PInf => PInf
  | NInf | NaN => NaN
  end.

Definition floor (x : number) : number :=
  match x with
  | Fin a => Fin (IZR (Zfloor a))
  | _ => x
  end.

(** [Math.min] and [Math.max] of two arguments: NaN if either is NaN. *)
Definition min (x y : number) : number :=
  match x, y with
  | NaN, _ | _, NaN => NaN
  | _, _ => if gt x y then y else x
  end.

Definition max (x y : number) : number :=
  match x, y with
  | NaN, _ | _, NaN => NaN
  | _, _ => if gt y x then y else x
  end.

(** Logarithms: [log 0 = -Infinity], NaN on negative arguments. *)
Definition log_base (base : R) (x : number) : number :=
  match x with
  | Fin a =>
      if Rlt_dec 0 a then Fin (ln a / ln base)
      else if Rlt_dec a 0 then NaN else NInf
  | PInf => PInf
  | NInf | NaN => NaN
  end.

Definition log2 : number -> number := log_base 2.
Definition log10 : number -> number := log_base 10.
(** [Math.log], the natural logarithm. *)
Definition log (x : number) : number :=
  match x with
  | Fin a =>
      if Rlt_dec 0 a then Fin (ln a)
      else if Rlt_dec a 0 then NaN else NInf
  | PInf => PInf
  | NInf | NaN => NaN
  end.

(** [Math.pow(10, x)] and [Math.cos]. *)
Definition pow10 (x : number) : number :=
  match x with
  | Fin a => Fin (Rpower 10 a)
  | PInf => PInf
  | NInf => Fin 0
  | NaN => NaN
  end.

Definition cos (x : number) : number :=
  match x with
  | Fin a => Fin (Rtrigo_def.cos a)
  | _ => NaN
  end.

(** A number is finite when it is neither NaN nor an infinity. *)
Definition finite (x : number) : Prop := exists r, x = Fin r.

(** A finite number within the closed interval [lo, hi]. *)
Definition within (lo hi : R) (x : number) : Prop :=
  exists r, x = Fin r /\ lo <= r <= hi.

End JS.

Abbreviation number := JS.number.
Abbreviation Fin := JS.Fin.
Abbreviation PInf := JS.PInf.
Abbreviation NInf := JS.NInf.
Abbreviation NaN := JS.NaN.
Coercion JS.Fin : R >-> JS.number.

Declare Scope js_scope.
Delimit Scope js_scope with js.
Bind Scope js_scope with JS.number.
Notation "x + y" := (JS.add x y) : js_scope.
Notation "x - y" := (JS.sub x y) : js_scope.
Notation "x * y" := (JS.mul x y) : js_scope.
Notation "x / y" := (JS.div x y) : js_scope.
Notation "x >? y" := (JS.gt x y) (at level 70, no associativity) : js_scope.
Notation "x <? y" := (JS.lt x y) (at level 70, no associativity) : js_scope.
Notation "x =? y" := (JS.eqb x y) (at level 70, no associativity) : js_scope.

(* ================================================================== *)
(** ** Loops and typed arrays *)

(** [for (let i = lo; i < hi; i += step) acc = body i acc].  The recursion
    is on a counter that starts at [hi - lo]; with a positive step the loop
    always leaves through its condition (lemma [for_fuel_enough]). *)
Fixpoint for_fuel {A : Type} (fuel : nat) (i hi step : Z)
         (body : Z -> A -> A) (acc : A) : A :=
  match fuel with
  | O => acc
  | S k =>
      if (i <? hi)%Z
      then for_fuel k (i + step)%Z hi step body (body i acc)
      else acc
  end.

Definition for_lt {A : Type} (lo hi step : Z) (body : Z -> A -> A) (acc : A) : A :=
  for_fuel (Z.to_nat (hi - lo)) lo hi step body acc.

(** [n] rounds of a loop body, round [k] last: the unrolled form of a loop. *)
Fixpoint rounds {A : Type} (n : nat) (f : nat -> A -> A) (acc : A) : A :=
  match n with
  | O => acc
  | S k => f k (rounds k f acc)
  end.

Definition Uint8Array := list Z.
Definition Float32Array := list R.

Definition uint8 (x : Z) : Prop := (0 <= x < 256)%Z.

Definition len {T : Type} (a : list T) : Z := Z.of_nat (length a).

(** [a[i]] on a [Uint8Array]; [undefined] (NaN in arithmetic) off the array. *)
Definition get (a : Uint8Array) (i : Z) : number :=
  if (i <? 0)%Z then NaN
  else match nth_error a (Z.to_nat i) with
       | Some x => Fin (IZR x)
       | None => NaN
       end.

(** [a[i]] on a [Float32Array]. *)
Definition getf (a : Float32Array) (i : Z) : number :=
  if (i <? 0)%Z then NaN
  else match nth_error a (Z.to_nat i) with
       | Some x => Fin x
       | None => NaN
       end.

(** [a[i]] on a JavaScript array of numbers. *)
Definition getn (a : list number) (i : Z) : number :=
  if (i <? 0)%Z then NaN
  else match nth_error a (Z.to_nat i) with
       | Some x => x
       | None => NaN
       end.

(* ================================================================== *)
(** ** The engine and the analyzer *)

(** What [AudioEngine] answers during one analysis frame: the magnitude
    spectrum, the waveform (both [null] before [init]) and the sample rate. *)
Record AudioEngine : Type := {
  getFrequencyData : option Uint8Array;
  getTimeDomainData : option Uint8Array;
  getSampleRate : R
}.

(** An initialised engine holding the given frame. *)
Definition frame (spectrum waveform : Uint8Array) (sampleRate : R) : AudioEngine :=
  {| getFrequencyData := Some spectrum;
     getTimeDomainData := Some waveform;
     getSampleRate := sampleRate |}.

(** The analyzer's state across frames: [this.prevSpectrum]. *)
Record AudioAnalyzer : Type := {
  prevSpectrum : option Uint8Array
}.

Definition numMelFilters : Z := 26.
Definition numMFCCs : Z := 13.

(** [new AudioAnalyzer(engine)]. *)
Definition newAnalyzer : AudioAnalyzer := {| prevSpectrum := None |}.

(** [if (!buffer || buffer.length === 0)]: the buffers a feature works on. *)
Definition usable (b : option Uint8Array) : option Uint8Array :=
  match b with
  | Some (x :: l) => Some (x :: l)
  | _ => None
  end.

Definition getRMS (e : AudioEngine) : number :=
  match usable (getTimeDomainData e) with
  | None => Fin 0
  | Some timeDomain =>
      let sum :=
        for_lt 0 (len timeDomain) 1 (fun i sum =>
          let normalized := ((get timeDomain i - 128) / 128)%js in
          (sum + normalized * normalized)%js) (Fin 0) in
      JS.sqrt (sum / IZR (len timeDomain))%js
  end.

Definition getPeak (e : AudioEngine) : number :=
  match usable (getTimeDomainData e) with
  | None => Fin 0
  | Some timeDomain =>
      for_lt 0 (len timeDomain) 1 (fun i max =>
        let normalized := (JS.abs (get timeDomain i - 128) / 128)%js in
        if (normalized >? max)%js then normalized else max) (Fin 0)
  end.

Definition getSpectralCentroid (e : AudioEngine) : number :=
  match usable (getFrequencyData e) with
  | None => Fin 0
  | Some spectrum =>
      let sampleRate := Fin (getSampleRate e) in
      let binCount := Fin (IZR (len spectrum)) in
      let freqPerBin := (sampleRate / (binCount * 2))%js in
      let '(weightedSum, sum) :=
        for_lt 0 (len spectrum) 1 (fun i '(weightedSum, sum) =>
          let magnitude := get spectrum i in
          let frequency := (IZR i * freqPerBin)%js in
          ((weightedSum + magnitude * frequency)%js, (sum + magnitude)%js))
          (Fin 0, Fin 0) in
      if (sum >? 0)%js then (weightedSum / sum)%js else Fin 0
  end.

Definition getSpectralSpread (e : AudioEngine) : number :=
  match usable (getFrequencyData e) with
  | None => Fin 0
  | Some spectrum =>
      let centroid := getSpectralCentroid e in
      let sampleRate := Fin (getSampleRate e) in
      let binCount := Fin (IZR (len spectrum)) in
      let freqPerBin := (sampleRate / (binCount * 2))%js in
      let '(weightedVariance, sum) :=
        for_lt 0 (len spectrum) 1 (fun i '(weightedVariance, sum) =>
          let magnitude := get spectrum i in
          let frequency := (IZR i * freqPerBin)%js in
          let diff := (frequency - centroid)%js in
          ((weightedVariance + magnitude * diff * diff)%js, (sum + magnitude)%js))
          (Fin 0, Fin 0) in
      if (sum >? 0)%js then JS.sqrt (weightedVariance / sum)%js else Fin 0
  end.

(** [getSpectralFlux] reads and replaces [this.prevSpectrum]: it returns the
    flux together with the analyzer after the call. *)
Definition getSpectralFlux (e : AudioEngine) (this : AudioAnalyzer)
  : number * AudioAnalyzer :=
  match usable (getFrequencyData e) with
  | None => (Fin 0, this)
  | Some spectrum =>
      (* new Uint8Array(spectrum): a copy, not an alias of the engine's buffer *)
      let currentSpectrum := spectrum in
      match prevSpectrum this with
      | None => (Fin 0, {| prevSpectrum := Some currentSpectrum |})
      | Some prev =>
          let flux :=
            for_lt 0 (len currentSpectrum) 1 (fun i flux =>
              let diff := (get currentSpectrum i - get prev i)%js in
              (flux + (if (diff >? 0)%js then diff else Fin 0))%js) (Fin 0) in
          ((flux / IZR (len currentSpectrum))%js,
           {| prevSpectrum := Some currentSpectrum |})
      end
  end.

Definition getSpectralEntropy (e : AudioEngine) : number :=
  match usable (getFrequencyData e) with
  | None => Fin 0
  | Some spectrum =>
      let sum :=
        for_lt 0 (len spectrum) 1 (fun i sum =>
          (sum + (get spectrum i + 1))%js) (Fin 0) in
      if (sum =? 0)%js then Fin 0 else
      let maxEntropy := JS.log2 (IZR (len spectrum)) in
      let entropy :=
        for_lt 0 (len spectrum) 1 (fun i entropy =>
          let p := ((get spectrum i + 1) / sum)%js in
          if (p >? 0)%js then (entropy - p * JS.log2 p)%js else entropy)
          (Fin 0) in
      (entropy / maxEntropy)%js
  end.

Definition getTonality (e : AudioEngine) : number :=
  match usable (getFrequencyData e) with
  | None => Fin 0
  | Some spectrum =>
      let '(peakEnergy, totalEnergy) :=
        for_lt 1 (len spectrum - 1) 1 (fun i '(peakEnergy, totalEnergy) =>
          let val := get spectrum i in
          let totalEnergy := (totalEnergy + val)%js in
          if (val >? get spectrum (i - 1))%js
             && (val >? get spectrum (i + 1))%js
             && (val >? 10)%js
          then ((peakEnergy + val)%js, totalEnergy)
          else (peakEnergy, totalEnergy))
          (Fin 0, Fin 0) in
      if (totalEnergy >? 0)%js
      then JS.min 1 (peakEnergy / totalEnergy * 3)%js
      else Fin 0
  end.

(** The [period] loop of [getPitch]: its bound [Math.min(maxPeriod,
    bufferSize / 2)] need not be an integer; for an integer [period],
    [period < x] is [period < ceil x] (lemma [lt_Zceil]). *)
Definition getPitch (e : AudioEngine) : number :=
  match usable (getTimeDomainData e) with
  | None => Fin 0
  | Some timeDomain =>
      let sampleRate := getSampleRate e in
      let bufferSize := len timeDomain in
      let signal : Float32Array :=
        map (fun x => (IZR x - 128) / 128) timeDomain in
      let minPeriod := Zfloor (sampleRate / 1000) in
      let maxPeriod := Zfloor (sampleRate / 50) in
      let '(bestPeriod, bestCorrelation) :=
        for_lt minPeriod
               (Zceil (Rmin (IZR maxPeriod) (IZR bufferSize / 2))) 1
          (fun period '(bestPeriod, bestCorrelation) =>
             let correlation :=
               for_lt 0 (bufferSize - period) 1 (fun i correlation =>
                 (correlation + getf signal i * getf signal (i + period))%js)
                 (Fin 0) in
             if (correlation >? bestCorrelation)%js
             then (period, correlation)
             else (bestPeriod, bestCorrelation))
          (0%Z, Fin 0) in
      if (0 <? bestPeriod)%Z
      then (Fin sampleRate / IZR bestPeriod)%js
      else Fin 0
  end.

Definition windowSize : Z := 64.

Definition getAmplitudeModulation (e : AudioEngine) : number :=
  match usable (getTimeDomainData e) with
  | None => Fin 0
  | Some timeDomain =>
      let envelopes : list number :=
        for_lt 0 (len timeDomain - windowSize) windowSize (fun i envelopes =>
          let max :=
            for_lt 0 windowSize 1 (fun j max =>
              JS.max max (JS.abs (get timeDomain (i + j) - 128)%js)) (Fin 0) in
          envelopes ++ [max]) [] in
      if (len envelopes <? 2)%Z then Fin 0 else
      let mean :=
        (fold_left (fun a b => (a + b)%js) envelopes (Fin 0)
         / IZR (len envelopes))%js in
      let variance :=
        (fold_left (fun acc val =>
           (acc + (val - mean) * (val - mean))%js) envelopes (Fin 0)
         / IZR (len envelopes))%js in
      JS.min 1 (JS.sqrt variance / 64)%js
  end.

Definition getFrequencyModulation (e : AudioEngine) (this : AudioAnalyzer)
  : number * AudioAnalyzer :=
  let '(flux, this') := getSpectralFlux e this in
  (JS.min 1 (flux / 10)%js, this').

(** The bounds of the bin loop [for (j = lowBin; j < highBin && j < binCount;
    j++)] of the mel filterbank.  [lowBin] and [highBin] come out of
    [Math.floor]; the loop runs no round when [lowBin] is NaN or the bound
    fails at once.  (A [lowBin] of -Infinity, which needs a negative sample
    rate, is given no round either.) *)
Definition binLoopBounds (lowBin highBin : number) (binCount : Z)
  : option (Z * Z) :=
  match lowBin, highBin with
  | Fin lo, Fin hi => Some (Zfloor lo, Z.min (Zceil hi) binCount)
  | Fin lo, PInf => Some (Zfloor lo, binCount)
  | _, _ => None
  end.

Definition freqToMel (f : number) : number :=
  (2595 * JS.log10 (1 + f / 700))%js.

Definition melToFreq (m : number) : number :=
  (700 * (JS.pow10 (m / 2595) - 1))%js.

Definition _applyMelFilterbank (spectrum : Uint8Array) (sampleRate : number)
           (binCount : Z) : list number :=
  let maxFreq := (sampleRate / 2)%js in
  let minMel := freqToMel 0 in
  let maxMel := freqToMel maxFreq in
  let melStep := ((maxMel - minMel) / (IZR numMelFilters + 1))%js in
  for_lt 0 numMelFilters 1 (fun i melSpectrum =>
    let centerMel := (minMel + (IZR i + 1) * melStep)%js in
    let centerFreq := melToFreq centerMel in
    let lowFreq := melToFreq (centerMel - melStep)%js in
    let highFreq := melToFreq (centerMel + melStep)%js in
    let lowBin := JS.floor (lowFreq / maxFreq * IZR binCount)%js in
    let centerBin := JS.floor (centerFreq / maxFreq * IZR binCount)%js in
    let highBin := JS.floor (highFreq / maxFreq * IZR binCount)%js in
    let sum :=
      match binLoopBounds lowBin highBin binCount with
      | None => Fin 0
      | Some (lo, hi) =>
          for_lt lo hi 1 (fun j sum =>
            let weight :=
              if (IZR j <? centerBin)%js
              then ((IZR j - lowBin) / (centerBin - lowBin))%js
              else ((highBin - IZR j) / (highBin - centerBin))%js in
            (sum + get spectrum j * JS.max 0 weight)%js) (Fin 0)
      end in
    melSpectrum ++ [sum]) [].

Definition _dct (input : list number) (numCoeffs : Z) : list number :=
  let N := len input in
  for_lt 0 numCoeffs 1 (fun k output =>
    let sum :=
      for_lt 0 N 1 (fun n sum =>
        (sum + getn input n
               * JS.cos (PI * IZR k * (IZR n + (1 / 2)%R) / IZR N))%js)
        (Fin 0) in
    output ++ [sum]) [].

Definition getMFCCs (e : AudioEngine) : list number :=
  match usable (getFrequencyData e) with
  | None => repeat (Fin 0) (Z.to_nat numMFCCs)
  | Some spectrum =>
      let sampleRate := Fin (getSampleRate e) in
      let binCount := len spectrum in
      let melSpectrum := _applyMelFilterbank spectrum sampleRate binCount in
      let logMelSpectrum := map (fun val => JS.log (val + 1)%js) melSpectrum in
      _dct logMelSpectrum numMFCCs
  end.

(** The feature record of [getAllFeatures]. *)
Record Features : Type := {
  rms : number;
  peak : number;
  spectralCentroid : number;
  spectralSpread : number;
  spectralFlux : number;
  spectralEntropy : number;
  tonality : number;
  pitch : number;
  amplitudeModulation : number;
  frequencyModulation : number;
  mfccs : list number
}.

(** The object literal evaluates its fields in order; the two calls that
    touch [this.prevSpectrum] are threaded through the analyzer. *)
Definition getAllFeatures (e : AudioEngine) (this : AudioAnalyzer)
  : Features * AudioAnalyzer :=
  let rms := getRMS e in
  let peak := getPeak e in
  let spectralCentroid := getSpectralCentroid e in
  let spectralSpread := getSpectralSpread e in
  let '(spectralFlux, this1) := getSpectralFlux e this in
  let spectralEntropy := getSpectralEntropy e in
  let tonality := getTonality e in
  let pitch := getPitch e in
  let amplitudeModulation := getAmplitudeModulation e in
  let '(frequencyModulation, this2) := getFrequencyModulation e this1 in
  let mfccs := getMFCCs e in
  ({| rms := rms;
      peak := peak;
      spectralCentroid := spectralCentroid;
      spectralSpread := spectralSpread;
      spectralFlux := spectralFlux;
      spectralEntropy := spectralEntropy;
      tonality := tonality;
      pitch := pitch;
      amplitudeModulation := amplitudeModulation;
      frequencyModulation := frequencyModulation;
      mfccs := mfccs |}, this2).

(* ================================================================== *)
(** ** Finite sums and the unrolled loops *)

Fixpoint bigsum (n : nat) (f : nat -> R) : R :=
  match n with
  | O => 0
  | S k => bigsum k f + f k
  end.

(** The number of rounds of [for (i = lo; i < hi; i += step)]. *)
Definition trip (lo hi step : Z) : nat :=
  Z.to_nat ((hi - lo + step - 1) / step).

(** Element [k] of a byte buffer as a real (0 off the buffer). *)
Definition val (a : Uint8Array) (k : nat) : R := IZR (nth k a 0%Z).


(** Integer sums, for evaluating a feature on a concrete buffer. *)
Fixpoint zsum (n : nat) (f : nat -> Z) : Z :=
  match n with
  | O => 0%Z
  | S k => (zsum k f + f k)%Z
  end.

(** The total magnitude of a spectrum and its two weighted sums, with
    [fpb] the width of a bin in Hz and [c] a centre frequency. *)
Definition totalMagnitude (s : Uint8Array) : R :=
  bigsum (length s) (val s).

Definition weightedFrequency (s : Uint8Array) (fpb : R) : R :=
  bigsum (length s) (fun k => val s k * (IZR (Z.of_nat k) * fpb)).

Definition weightedDeviation (s : Uint8Array) (fpb c : R) : R :=
  bigsum (length s)
    (fun k => val s k * (IZR (Z.of_nat k) * fpb - c)
                      * (IZR (Z.of_nat k) * fpb - c)).

(** [sampleRate / (binCount * 2)]. *)
Definition freqPerBin (s : Uint8Array) (sampleRate : R) : R :=
  sampleRate / (IZR (len s) * 2).

(** The magnitude-weighted mean frequency, 0 for a spectrum without
    magnitude. *)
Definition meanFrequency (s : Uint8Array) (sampleRate : R) : R :=
  if Rlt_dec 0 (totalMagnitude s)
  then weightedFrequency s (freqPerBin s sampleRate) / totalMagnitude s
  else 0.

(** [s'] is [s] with every bin multiplied by [c]. *)
Definition scaled (c : R) (s s' : Uint8Array) : Prop :=
  Forall2 (fun x y => IZR y = c * IZR x) s s'.

(** The spectrum of the scenario: 1024 bins, all zero except bin 100 = 255. *)
Definition singleBin : Uint8Array :=
  repeat 0%Z 100 ++ [255%Z] ++ repeat 0%Z 923.

(** The positive part of the change of bin [k] from the stored spectrum
    [prev] to the current one; a bin that [prev] does not have counts 0. *)
Definition positiveDifference (cur prev : Uint8Array) (k : nat) : Z :=
  match nth_error prev k with
  | Some p => Z.max 0 (nth k cur 0%Z - p)
  | None => 0%Z
  end.

(** The base-2 logarithm of a positive real. *)
Definition log2R (x : R) : R := ln x / ln 2.

(** The magnitude distribution of a spectrum, every bin smoothed by +1, and
    its Shannon entropy in bits. *)
Definition smoothedTotal (s : Uint8Array) : R :=
  bigsum (length s) (fun k => val s k + 1).

Definition probability (s : Uint8Array) (k : nat) : R :=
  (val s k + 1) / smoothedTotal s.

Definition shannonEntropy (s : Uint8Array) : R :=
  bigsum (length s) (fun k => - (probability s k * log2R (probability s k))).

(** The normalised sample [k] of a waveform, and the unnormalised
    autocorrelation of the waveform at lag [period]. *)
Definition sample (w : Uint8Array) (k : nat) : R := (val w k - 128) / 128.

Definition autocorrelation (w : Uint8Array) (period : nat) : R :=
  bigsum (length w - period) (fun i => sample w i * sample w (i + period)).

(** The bounds of the period search of [getPitch]. *)
Definition minPeriod (sampleRate : R) : Z := Zfloor (sampleRate / 1000).
Definition maxPeriod (sampleRate : R) : Z := Zfloor (sampleRate / 50).
Definition periodBound (w : Uint8Array) (sampleRate : R) : R :=
  Rmin (IZR (maxPeriod sampleRate)) (IZR (len w) / 2).

(** The number of rounds of the window loop of [getAmplitudeModulation],
    [for (i = 0; i < length - windowSize; i += windowSize)]: one envelope
    sample is pushed per round. *)
Definition envelopeCount (w : Uint8Array) : nat :=
  trip 0 (len w - windowSize) windowSize.

(** Two full windows: 64 samples at the centre, then 64 at full scale. *)
Definition twoWindows : Uint8Array := repeat 128%Z 64 ++ repeat 255%Z 64.

(** A silent frame of the analyser's size: 1024 empty bins and 2048
    samples at the centre value. *)
Definition silentSpectrum : Uint8Array := repeat 0%Z 1024.
Definition silentWaveform : Uint8Array := repeat 128%Z 2048.

(** A constant waveform one step above the centre. *)
Definition offsetWaveform : Uint8Array := repeat 129%Z 2048.

(** The largest of [f 0 .. f (n-1)] and 0: what a running maximum that
    starts at 0 holds after [n] rounds. *)
Fixpoint bigmax (n : nat) (f : nat -> R) : R :=
  match n with
  | O => 0
  | S k => Rmax (bigmax k f) (f k)
  end.

(** The distance of sample [k] from the centre, on the scale of [getPeak]. *)
Definition deviation (w : Uint8Array) (k : nat) : R :=
  Rabs (val w k - 128) / 128.

(** The frequency of the last bin, [(binCount - 1) * freqPerBin]. *)
Definition topFrequency (s : Uint8Array) (sampleRate : R) : R :=
  (INR (length s) - 1) * freqPerBin s sampleRate.

(** A spectrum whose only magnitude [v] sits in bin [a]. *)
Definition oneBin (a b : nat) (v : Z) : Uint8Array :=
  repeat 0%Z a ++ v :: repeat 0%Z b.

(** Bin [i] is a local peak of the spectrum: above both neighbours and
    above the threshold 10. *)
Definition isPeak (s : Uint8Array) (i : nat) : bool :=
  (nth (Nat.pred i) s 0 <? nth i s 0)%Z
  && (nth (S i) s 0 <? nth i s 0)%Z
  && (10 <? nth i s 0)%Z.

(** The energy of the interior bins (all but the first and the last), and
    the part of it that sits on local peaks. *)
Definition interiorEnergy (s : Uint8Array) : R :=
  bigsum (length s - 2) (fun k => val s (S k)).

Definition peakEnergy (s : Uint8Array) : R :=
  bigsum (length s - 2) (fun k => if isPeak s (S k) then val s (S k) else 0).

(** Envelope sample [k] of a waveform: the largest distance from the centre
    within window [k] of 64 samples. *)
Definition envelope (w : Uint8Array) (k : nat) : R :=
  bigmax 64 (fun j => Rabs (val w (64 * k + j) - 128)).

(** Mean and variance of the first [n] values of [e]. *)
Definition meanOf (n : nat) (e : nat -> R) : R := bigsum n e / INR n.

Definition varianceOf (n : nat) (e : nat -> R) : R :=
  bigsum n (fun k => (e k - meanOf n e) * (e k - meanOf n e)) / INR n.

(** The mel scale on reals: [freqToMel] and [melToFreq] off the special
    values. *)
Definition melOf (f : R) : R := 2595 * (ln (1 + f / 700) / ln 10).
Definition freqOf (m : R) : R := 700 * (Rpower 10 (m / 2595) - 1).

(** A finite number that is not negative. *)
Definition nonnegative (x : number) : Prop := exists r, x = Fin r /\ 0 <= r.

(* ================================================================== *)
(** ** Playback state of the engine *)








(* ================================================================== *)
(** ** The callers in main.js *)

(** The scale of one MFCC bar in [updateMFCCSidebar]:
    [Math.min(1, Math.max(0, (mfcc + 40) / 80))]. *)
Definition mfccBarScale (mfcc : number) : number :=
  JS.min 1 (JS.max 0 ((mfcc + 40) / 80)%js).

(** The scales set by the bar loop, [for (i = 0; i < Math.min(13,
    features.mfccs.length); i++)], one per coefficient (every bar element
    present). *)
Definition mfccBarScales (features : Features) : list number :=
  for_lt 0 (Z.min 13 (len (mfccs features))) 1
    (fun i scales => scales ++ [mfccBarScale (getn (mfccs features) i)]) [].


(* ================================================================== *)
(** ** The visualizers that consume the record *)

(** [a[i] = x] on a JavaScript array: an element within the array is
    replaced; an index past the end grows the array, the holes reading as
    [undefined]; a negative index leaves the elements alone. *)
Definition setn (a : list number) (i : Z) (x : number) : list number :=
  if (i <? 0)%Z then a
  else if (i <? len a)%Z
       then firstn (Z.to_nat i) a ++ x :: skipn (S (Z.to_nat i)) a
       else a ++ repeat NaN (Z.to_nat (i - len a)) ++ [x].

Module VocalSignature.

(** The radar chart's state: the eight smoothed values and the trail. *)
Record t : Type := {
  values : list number;
  history : list (list number)
}.

Definition smoothing : R := 0.15.
Definition maxHistory : Z := 10.

(** [new VocalSignature(canvas)], as far as the values go. *)
Definition create : t := {| values := repeat (Fin 0) 8; history := [] |}.

(** The eight axis values computed from the record, before clamping. *)
Definition newValues (features : Features) : list number :=
  let spectralCrest :=
    if (peak features >? 0)%js
    then (JS.min 1 (peak features / (rms features + 0.001)) / 5)%js
    else Fin 0 in
  let spectralSlope :=
    JS.min 1 (spectralCentroid features / 10000
              * (1 - spectralEntropy features))%js in
  [ (spectralCentroid features / 10000)%js;
    (spectralSpread features / 5000)%js;
    tonality features;
    spectralCrest;
    spectralEntropy features;
    spectralSlope;
    amplitudeModulation features;
    frequencyModulation features ].

Definition update (features : Features) (this : t) : t :=
  let newValues := newValues features in
  let values :=
    for_lt 0 (len (values this)) 1 (fun i values =>
      let target := JS.min 1 (JS.max 0 (getn newValues i)) in
      setn values i
           (getn values i + (target - getn values i) * smoothing)%js)
      (values this) in
  (* this.history.push([...this.values]) and the shift past maxHistory *)
  let history := history this ++ [values] in
  let history := if (maxHistory <? len history)%Z then tl history else history in
  {| values := values; history := history |}.

End VocalSignature.

Module PitchMap.

(** The three rolling buffers and the write position. *)
Record t : Type := {
  centroidBuffer : list number;
  pitchBuffer : list number;
  gapBuffer : list number;
  index : Z
}.

Definition bufferSize : Z := 300.

Definition create : t :=
  {| centroidBuffer := repeat (Fin 0) 300;
     pitchBuffer := repeat (Fin 0) 300;
     gapBuffer := repeat (Fin 0) 300;
     index := 0 |}.

(** [this.index] is a non-negative integer, on which [%] is the remainder
    of the truncated division. *)
Definition addData (centroid pitch : number) (this : t) : t :=
  {| centroidBuffer := setn (centroidBuffer this) (index this) centroid;
     pitchBuffer := setn (pitchBuffer this) (index this) pitch;
     gapBuffer := setn (gapBuffer this) (index this)
                       (JS.abs (centroid - pitch)%js);
     index := Z.rem (index this + 1) bufferSize |}.

(** The state the buffers are kept in: three buffers of [bufferSize]
    entries and a write position inside them. *)
Definition wellFormed (this : t) : Prop :=
  len (centroidBuffer this) = bufferSize
  /\ len (pitchBuffer this) = bufferSize
  /\ len (gapBuffer this) = bufferSize
  /\ (0 <= index this < bufferSize)%Z.

End PitchMap.

(* ================================================================== *)
(** ** The fixed projection of PCA.js *)

Module PCA.

(** [Math.sin((i + 1) * (j + 1) * 0.5) * 0.5 + 0.5], for loop counters
    [i] and [j]. *)
Definition weight (i j : Z) : R :=
  sin ((IZR i + 1) * (IZR j + 1) * 0.5) * 0.5 + 0.5.


End PCA.


(* ================================================================== *)
(** ** The analysis step of the audio context provider *)

Module AudioProvider.

Record AudioData : Type := {
  amplitude : number;
  dominantFrequency : number;
  frequencyBands : list number
}.

(** [analyze], past its guard, on the two buffers it has just read;
    [sampleRate] is [audioContextRef.current?.sampleRate], for which
    [|| 44100] stands in when it is missing or 0. *)
Definition analyze (frequencyData timeDomainData : Uint8Array)
           (sampleRate : option R) : AudioData :=
  let sum :=
    for_lt 0 (len timeDomainData) 1 (fun i sum =>
      let value := ((get timeDomainData i - 128) / 128)%js in
      (sum + value * value)%js) (Fin 0) in
  let amplitude := JS.sqrt (sum / IZR (len timeDomainData))%js in
  let '(maxValue, maxIndex) :=
    for_lt 0 (len frequencyData) 1 (fun i '(maxValue, maxIndex) =>
      if (get frequencyData i >? maxValue)%js
      then (get frequencyData i, i)
      else (maxValue, maxIndex)) (Fin 0, 0%Z) in
  let sampleRate :=
    match sampleRate with
    | Some sr => if Req_dec_T sr 0 then 44100 else sr
    | None => 44100
    end in
  let nyquist := (Fin sampleRate / 2)%js in
  let dominantFrequency :=
    (IZR maxIndex / IZR (len frequencyData) * nyquist)%js in
  let bandSize := Zfloor (IZR (len frequencyData) / 6) in
  let frequencyBands :=
    for_lt 0 6 1 (fun band frequencyBands =>
      let start := (band * bandSize)%Z in
      let end_ := (start + bandSize)%Z in
      let bandSum :=
        for_lt start end_ 1 (fun i bandSum =>
          (bandSum + get frequencyData i)%js) (Fin 0) in
      frequencyBands ++ [(bandSum / IZR bandSize / 255)%js]) [] in
  {| amplitude := amplitude;
     dominantFrequency := dominantFrequency;
     frequencyBands := frequencyBands |}.

End AudioProvider.

(* ================================================================== *)
(** ** The time display of main.js *)

From Stdlib Require String DecimalString.

Module TimeDisplay.
Import String DecimalString.






End TimeDisplay.
Lemma rounds_ext {A : Type} (n : nat) (f g : nat -> A -> A) (acc : A) :
  (forall k a, (k < n)%nat -> f k a = g k a) ->
  rounds n f acc = rounds n g acc.
Proof.
  induction n as [|n IH]; intros H; simpl; [reflexivity|].
  rewrite IH by (intros; apply H; lia).
  apply H; lia.
Qed.

Lemma rounds_shift {A : Type} (n : nat) (f : nat -> A -> A) (acc : A) :
  rounds (S n) f acc = rounds n (fun k => f (S k)) (f O acc).
Proof.
  induction n as [|n IH]; [reflexivity|].
  change (rounds (S (S n)) f acc) with (f (S n) (rounds (S n) f acc)).
  rewrite IH. reflexivity.
Qed.

Lemma trip_stop (lo hi step : Z) :
  (0 < step)%Z -> (hi <= lo)%Z -> trip lo hi step = O.
Proof.
  intros Hs Hle. unfold trip.
  assert ((hi - lo + step - 1) / step <= 0)%Z.
  { apply Z.lt_succ_r. apply Z.div_lt_upper_bound; lia. }
  lia.
Qed.

Lemma trip_go (lo hi step : Z) :
  (0 < step)%Z -> (lo < hi)%Z ->
  trip lo hi step = S (trip (lo + step) hi step).
Proof.
  intros Hs Hlt. unfold trip.
  replace (hi - lo + step - 1)%Z with ((hi - (lo + step) + step - 1) + 1 * step)%Z by ring.
  rewrite Z.div_add by lia.
  assert (0 <= (hi - (lo + step) + step - 1) / step)%Z.
  { apply Z.div_pos; lia. }
  lia.
Qed.

Lemma trip_le_fuel (lo hi step : Z) :
  (0 < step)%Z -> (trip lo hi step <= Z.to_nat (hi - lo))%nat.
Proof.
  intros Hs. unfold trip.
  destruct (Z_lt_le_dec lo hi) as [Hlt|Hle].
  - apply Z2Nat.inj_le; try lia.
    + apply Z.div_pos; lia.
    + apply Z.lt_succ_r. apply Z.div_lt_upper_bound; nia.
  - assert ((hi - lo + step - 1) / step <= 0)%Z.
    { apply Z.lt_succ_r. apply Z.div_lt_upper_bound; lia. }
    lia.
Qed.

(** With enough fuel the loop is its unrolled form. *)
Lemma for_fuel_rounds {A : Type} (step hi : Z) (body : Z -> A -> A) :
  (0 < step)%Z ->
  forall (fuel : nat) (i : Z) (acc : A),
    (trip i hi step <= fuel)%nat ->
    for_fuel fuel i hi step body acc
    = rounds (trip i hi step) (fun k => body (i + Z.of_nat k * step)%Z) acc.
Proof.
  intros Hs. induction fuel as [|fuel IH]; intros i acc Hf.
  - assert (trip i hi step = O) as -> by lia. reflexivity.
  - simpl. destruct (Z.ltb_spec i hi) as [Hlt|Hge].
    + rewrite (trip_go i hi step Hs Hlt) in *.
      rewrite IH by lia. rewrite rounds_shift.
      replace (i + Z.of_nat 0 * step)%Z with i by lia.
      apply rounds_ext. intros k a _. f_equal. lia.
    + rewrite trip_stop by assumption. reflexivity.
Qed.

(** The fuel is never what ends a loop: more of it changes nothing. *)
Lemma for_fuel_enough {A : Type} (lo hi step : Z) (body : Z -> A -> A)
      (acc : A) (extra : nat) :
  (0 < step)%Z ->
  for_fuel (Z.to_nat (hi - lo) + extra) lo hi step body acc
  = for_lt lo hi step body acc.
Proof.
  intros Hs. unfold for_lt.
  pose proof (trip_le_fuel lo hi step Hs).
  rewrite !for_fuel_rounds by lia. reflexivity.
Qed.

Lemma for_lt_rounds {A : Type} (lo hi step : Z) (body : Z -> A -> A) (acc : A) :
  (0 < step)%Z ->
  for_lt lo hi step body acc
  = rounds (trip lo hi step) (fun k => body (lo + Z.of_nat k * step)%Z) acc.
Proof.
  intros Hs. unfold for_lt. apply for_fuel_rounds; [assumption|].
  apply trip_le_fuel; assumption.
Qed.

Lemma trip_unit (lo hi : Z) : trip lo hi 1 = Z.to_nat (hi - lo).
Proof. unfold trip. rewrite Z.div_1_r. f_equal. lia. Qed.

(** A loop over a whole array. *)
Lemma for_array {A T : Type} (a : list T) (body : Z -> A -> A) (acc : A) :
  for_lt 0 (len a) 1 body acc
  = rounds (length a) (fun k => body (Z.of_nat k)) acc.
Proof.
  rewrite for_lt_rounds by lia. rewrite trip_unit.
  unfold len. rewrite Z.sub_0_r, Nat2Z.id.
  apply rounds_ext. intros k x _. f_equal. lia.
Qed.

Lemma rounds_inv {A : Type} (P : A -> Prop) (n : nat) (f : nat -> A -> A) (acc : A) :
  P acc ->
  (forall k a, (k < n)%nat -> P a -> P (f k a)) ->
  P (rounds n f acc).
Proof.
  intros H0 Hstep. induction n as [|n IH]; simpl; [assumption|].
  apply Hstep; [lia|]. apply IH. intros; apply Hstep; [lia|assumption].
Qed.

(** *** Arithmetic on finite numbers *)

(** Sums, differences, products and absolute values of finite numbers
    reduce by computation; quotients, roots and comparisons go through the
    lemmas below. *)
Ltac fin_arith := cbn [JS.add JS.sub JS.neg JS.mul JS.abs].

Lemma div_fin (a b : R) : b <> 0 -> (Fin a / Fin b)%js = Fin (a / b).
Proof. intros Hb. simpl. destruct (Req_dec_T b 0); [contradiction|reflexivity]. Qed.

Lemma div_zero_zero : (Fin 0 / Fin 0)%js = NaN.
Proof.
  simpl. destruct (Req_dec_T 0 0) as [_|H]; [|exfalso; apply H; reflexivity].
  destruct (Rlt_dec 0 0); [lra|reflexivity].
Qed.

Lemma gt_fin (a b : R) : (Fin a >? Fin b)%js = true <-> b < a.
Proof.
  simpl. destruct (Rlt_dec b a); split; intros H;
    try reflexivity; try assumption; try discriminate; contradiction.
Qed.

Lemma gt_fin_true (a b : R) : b < a -> (Fin a >? Fin b)%js = true.
Proof. apply gt_fin. Qed.

Lemma gt_fin_false (a b : R) : a <= b -> (Fin a >? Fin b)%js = false.
Proof. intros H. simpl. destruct (Rlt_dec b a); [lra|reflexivity]. Qed.

Lemma eqb_fin_false (a b : R) : a <> b -> (Fin a =? Fin b)%js = false.
Proof. intros H. simpl. destruct (Req_dec_T a b); [contradiction|reflexivity]. Qed.

Lemma sqrt_fin (a : R) : 0 <= a -> JS.sqrt (Fin a) = Fin (sqrt a).
Proof. intros H. simpl. destruct (Rlt_dec a 0); [lra|reflexivity]. Qed.

Lemma log2_fin (a : R) : 0 < a -> JS.log2 (Fin a) = Fin (ln a / ln 2).
Proof.
  intros H. unfold JS.log2, JS.log_base.
  destruct (Rlt_dec 0 a); [reflexivity|contradiction].
Qed.

Lemma min_one_fin (a : R) : JS.min (Fin 1) (Fin a) = Fin (Rmin 1 a).
Proof.
  unfold JS.min, JS.gt, Rmin.
  destruct (Rlt_dec a 1), (Rle_dec 1 a); try reflexivity; try lra.
Qed.

(** *** Reading arrays within their bounds *)

Lemma get_val (a : Uint8Array) (k : nat) :
  (k < length a)%nat -> get a (Z.of_nat k) = Fin (val a k).
Proof.
  intros Hk. unfold get, val.
  destruct (Z.ltb_spec (Z.of_nat k) 0); [lia|].
  rewrite Nat2Z.id.
  destruct (nth_error a k) eqn:E.
  - rewrite (nth_error_nth _ _ _ E). reflexivity.
  - apply nth_error_None in E. lia.
Qed.

Lemma get_outside (a : Uint8Array) (i : Z) :
  (i < 0 \/ len a <= i)%Z -> get a i = NaN.
Proof.
  intros H. unfold get, len in *.
  destruct (Z.ltb_spec i 0); [reflexivity|].
  destruct (nth_error a (Z.to_nat i)) eqn:E; [|reflexivity].
  assert (Z.to_nat i < length a)%nat by (apply nth_error_Some; congruence).
  lia.
Qed.

Lemma getf_nth (a : Float32Array) (k : nat) :
  (k < length a)%nat -> getf a (Z.of_nat k) = Fin (nth k a 0).
Proof.
  intros Hk. unfold getf.
  destruct (Z.ltb_spec (Z.of_nat k) 0); [lia|].
  rewrite Nat2Z.id.
  destruct (nth_error a k) eqn:E.
  - rewrite (nth_error_nth _ _ _ E). reflexivity.
  - apply nth_error_None in E. lia.
Qed.

Lemma val_all (a : Uint8Array) (c : Z) (k : nat) :
  Forall (eq c) a -> (k < length a)%nat -> val a k = IZR c.
Proof.
  intros Hall Hk. unfold val.
  rewrite Forall_forall in Hall.
  rewrite <- (Hall (nth k a 0%Z)); [reflexivity|].
  apply nth_In; assumption.
Qed.

Lemma usable_cons (x : Z) (l : list Z) : usable (Some (x :: l)) = Some (x :: l).
Proof. reflexivity. Qed.

Lemma usable_nonempty (a : Uint8Array) : a <> [] -> usable (Some a) = Some a.
Proof. destruct a; [congruence|reflexivity]. Qed.

Lemma len_pos (a : Uint8Array) : a <> [] -> (0 < len a)%Z.
Proof. destruct a; [congruence|]. intros _. unfold len. simpl. lia. Qed.

Lemma len_IZR_pos (a : Uint8Array) : a <> [] -> 0 < IZR (len a).
Proof. intros H. apply IZR_lt. apply len_pos; assumption. Qed.

(** *** Sums *)

Lemma bigsum_ext (n : nat) (f g : nat -> R) :
  (forall k, (k < n)%nat -> f k = g k) -> bigsum n f = bigsum n g.
Proof.
  induction n as [|n IH]; intros H; simpl; [reflexivity|].
  rewrite IH by (intros; apply H; lia). rewrite H by lia. reflexivity.
Qed.

Lemma bigsum_zero (n : nat) (f : nat -> R) :
  (forall k, (k < n)%nat -> f k = 0) -> bigsum n f = 0.
Proof.
  induction n as [|n IH]; intros H; simpl; [reflexivity|].
  rewrite IH by (intros; apply H; lia). rewrite H by lia. lra.
Qed.

Lemma bigsum_const (n : nat) (c : R) : bigsum n (fun _ => c) = INR n * c.
Proof.
  induction n as [|n IH]; [simpl; lra|].
  rewrite S_INR. simpl bigsum. rewrite IH. lra.
Qed.

Lemma bigsum_scal (n : nat) (c : R) (f : nat -> R) :
  bigsum n (fun k => c * f k) = c * bigsum n f.
Proof. induction n as [|n IH]; simpl; [lra|]. rewrite IH. lra. Qed.

Lemma bigsum_plus (n : nat) (f g : nat -> R) :
  bigsum n (fun k => f k + g k) = bigsum n f + bigsum n g.
Proof. induction n as [|n IH]; simpl; [lra|]. rewrite IH. lra. Qed.

Lemma bigsum_nonneg (n : nat) (f : nat -> R) :
  (forall k, (k < n)%nat -> 0 <= f k) -> 0 <= bigsum n f.
Proof.
  induction n as [|n IH]; intros H; simpl; [lra|].
  assert (0 <= bigsum n f) by (apply IH; intros; apply H; lia).
  assert (0 <= f n) by (apply H; lia). lra.
Qed.

Lemma bigsum_le (n : nat) (f g : nat -> R) :
  (forall k, (k < n)%nat -> f k <= g k) -> bigsum n f <= bigsum n g.
Proof.
  induction n as [|n IH]; intros H; simpl; [lra|].
  assert (bigsum n f <= bigsum n g) by (apply IH; intros; apply H; lia).
  assert (f n <= g n) by (apply H; lia). lra.
Qed.

(** A loop that adds one finite term per round computes a finite sum. *)
Lemma rounds_sum (n : nat) (term : nat -> number) (f : nat -> R) (a : R) :
  (forall k, (k < n)%nat -> term k = Fin (f k)) ->
  rounds n (fun k acc => (acc + term k)%js) (Fin a) = Fin (a + bigsum n f).
Proof.
  induction n as [|n IH]; intros H; simpl.
  - f_equal. lra.
  - rewrite IH by (intros; apply H; lia). rewrite H by lia.
    simpl. f_equal. lra.
Qed.

(** Two accumulators updated side by side are two loops. *)
Lemma rounds_pair {A B : Type} (n : nat) (f : nat -> A -> A) (g : nat -> B -> B)
      (a : A) (b : B) :
  rounds n (fun k '(x, y) => (f k x, g k y)) (a, b)
  = (rounds n f a, rounds n g b).
Proof. induction n as [|n IH]; simpl; [reflexivity|]. rewrite IH. reflexivity. Qed.

(* ================================================================== *)
(** ** Loudness: RMS and peak *)

Lemma getRMS_closed (s w : Uint8Array) (sr : R) :
  w <> [] ->
  getRMS (frame s w sr)
  = Fin (sqrt (bigsum (length w)
                 (fun k => (val w k - 128) / 128 * ((val w k - 128) / 128))
               / IZR (len w))).
Proof.
  intros Hw. unfold getRMS. simpl getTimeDomainData.
  rewrite usable_nonempty by assumption.
  rewrite for_array.
  rewrite (rounds_sum _ _
    (fun k => (val w k - 128) / 128 * ((val w k - 128) / 128))).
  - pose proof (len_IZR_pos w Hw) as Hn.
    rewrite div_fin by lra. rewrite Rplus_0_l.
    apply sqrt_fin.
    apply Rmult_le_pos; [|left; apply Rinv_0_lt_compat; assumption].
    apply bigsum_nonneg. intros k _. apply Rle_0_sqr.
  - intros k Hk. rewrite get_val by assumption.
    fin_arith. rewrite div_fin by lra. fin_arith. reflexivity.
Qed.



(* ================================================================== *)
(** ** Spectral centroid and spread *)

Lemma bigsum_IZR (n : nat) (f : nat -> Z) :
  bigsum n (fun k => IZR (f k)) = IZR (zsum n f).
Proof.
  induction n as [|n IH]; simpl; [reflexivity|].
  rewrite IH, plus_IZR. reflexivity.
Qed.

Lemma freqPerBin_fin (s : Uint8Array) (sr : R) :
  s <> [] ->
  (Fin sr / (Fin (IZR (len s)) * 2))%js = Fin (freqPerBin s sr).
Proof.
  intros Hs. fin_arith. pose proof (len_IZR_pos s Hs).
  rewrite div_fin by lra. reflexivity.
Qed.

Lemma sum_magnitude (s : Uint8Array) :
  rounds (length s) (fun k sum => (sum + get s (Z.of_nat k))%js) (Fin 0)
  = Fin (totalMagnitude s).
Proof.
  rewrite (rounds_sum _ _ (val s)).
  - unfold totalMagnitude. f_equal. lra.
  - intros k Hk. apply get_val; assumption.
Qed.

Lemma getSpectralCentroid_closed (s w : Uint8Array) (sr : R) :
  getSpectralCentroid (frame s w sr) = Fin (meanFrequency s sr).
Proof.
  destruct s as [|x s'] eqn:E.
  { unfold meanFrequency, totalMagnitude. simpl.
    destruct (Rlt_dec 0 0); [lra|reflexivity]. }
  rewrite <- E. assert (Hs : s <> []) by (subst; discriminate). clear E.
  unfold getSpectralCentroid. simpl getFrequencyData. simpl getSampleRate.
  rewrite usable_nonempty by assumption.
  rewrite freqPerBin_fin by assumption.
  rewrite for_array.
  change (rounds (length s) _ (Fin 0, Fin 0))
    with (rounds (length s)
            (fun k '(weightedSum, sum) =>
               ((fun k weightedSum =>
                   (weightedSum + get s (Z.of_nat k)
                      * (IZR (Z.of_nat k) * Fin (freqPerBin s sr)))%js)
                  k weightedSum,
                (fun k sum => (sum + get s (Z.of_nat k))%js) k sum))
            (Fin 0, Fin 0)).
  rewrite rounds_pair. rewrite sum_magnitude.
  rewrite (rounds_sum _ _
    (fun k => val s k * (IZR (Z.of_nat k) * freqPerBin s sr))).
  2:{ intros k Hk. rewrite get_val by assumption. reflexivity. }
  rewrite Rplus_0_l. unfold meanFrequency. fold (weightedFrequency s (freqPerBin s sr)).
  destruct (Rlt_dec 0 (totalMagnitude s)) as [Hpos|Hnpos].
  - rewrite gt_fin_true by assumption. apply div_fin. lra.
  - rewrite gt_fin_false by lra. reflexivity.
Qed.

Lemma getSpectralSpread_closed (s w : Uint8Array) (sr : R) :
  getSpectralSpread (frame s w sr)
  = if Rlt_dec 0 (totalMagnitude s)
    then JS.sqrt (Fin (weightedDeviation s (freqPerBin s sr) (meanFrequency s sr)
                       / totalMagnitude s))
    else Fin 0.
Proof.
  destruct s as [|x s'] eqn:E.
  { unfold totalMagnitude. simpl. destruct (Rlt_dec 0 0); [lra|reflexivity]. }
  rewrite <- E. assert (Hs : s <> []) by (subst; discriminate). clear E.
  unfold getSpectralSpread. rewrite getSpectralCentroid_closed.
  simpl getFrequencyData. simpl getSampleRate.
  rewrite usable_nonempty by assumption.
  rewrite freqPerBin_fin by assumption.
  rewrite for_array.
  change (rounds (length s) _ (Fin 0, Fin 0))
    with (rounds (length s)
            (fun k '(weightedVariance, sum) =>
               ((fun k weightedVariance =>
                   (weightedVariance + get s (Z.of_nat k)
                      * (IZR (Z.of_nat k) * Fin (freqPerBin s sr)
                         - Fin (meanFrequency s sr))
                      * (IZR (Z.of_nat k) * Fin (freqPerBin s sr)
                         - Fin (meanFrequency s sr)))%js)
                  k weightedVariance,
                (fun k sum => (sum + get s (Z.of_nat k))%js) k sum))
            (Fin 0, Fin 0)).
  rewrite rounds_pair. rewrite sum_magnitude.
  rewrite (rounds_sum _ _
    (fun k => val s k * (IZR (Z.of_nat k) * freqPerBin s sr - meanFrequency s sr)
                      * (IZR (Z.of_nat k) * freqPerBin s sr - meanFrequency s sr))).
  2:{ intros k Hk. rewrite get_val by assumption. reflexivity. }
  rewrite Rplus_0_l.
  fold (weightedDeviation s (freqPerBin s sr) (meanFrequency s sr)).
  destruct (Rlt_dec 0 (totalMagnitude s)) as [Hpos|Hnpos].
  - rewrite gt_fin_true by assumption. rewrite div_fin by lra. reflexivity.
  - rewrite gt_fin_false by lra. reflexivity.
Qed.

Lemma totalMagnitude_IZR (s : Uint8Array) :
  totalMagnitude s = IZR (zsum (length s) (fun k => nth k s 0%Z)).
Proof. unfold totalMagnitude, val. apply bigsum_IZR. Qed.

Lemma weightedFrequency_IZR (s : Uint8Array) (fpb : R) :
  weightedFrequency s fpb
  = IZR (zsum (length s) (fun k => nth k s 0 * Z.of_nat k)%Z) * fpb.
Proof.
  unfold weightedFrequency, val. rewrite <- bigsum_IZR.
  rewrite Rmult_comm, <- bigsum_scal.
  apply bigsum_ext. intros k _. rewrite mult_IZR. ring.
Qed.

Lemma singleBin_magnitude : totalMagnitude singleBin = 255.
Proof.
  rewrite totalMagnitude_IZR.
  replace (zsum _ _) with 255%Z by (vm_compute; reflexivity).
  reflexivity.
Qed.

Lemma singleBin_centroid (w : Uint8Array) :
  getSpectralCentroid (frame singleBin w 44100)
  = Fin (100 * 44100 / (1024 * 2)).
Proof.
  rewrite getSpectralCentroid_closed. f_equal.
  unfold meanFrequency. rewrite singleBin_magnitude.
  destruct (Rlt_dec 0 255); [|lra].
  rewrite weightedFrequency_IZR.
  replace (zsum _ _) with 25500%Z by (vm_compute; reflexivity).
  unfold freqPerBin.
  replace (len singleBin) with 1024%Z by (vm_compute; reflexivity).
  field.
Qed.

(** C6.  [getSpectralCentroid] is the magnitude-weighted mean of the bin
    frequencies [i * freqPerBin], with [freqPerBin = sampleRate / (2 *
    binCount)]; it is 0 when the total magnitude is 0; and on the 1024-bin
    spectrum whose only magnitude is 255 in bin 100, at 44100 Hz, it is
    exactly [100 * 44100 / (1024 * 2)]. *)
Theorem spectral_centroid_weighted_mean (s w : Uint8Array) (sr : R) :
  (0 < totalMagnitude s ->
   getSpectralCentroid (frame s w sr)
   = Fin (bigsum (length s)
            (fun i => val s i * (IZR (Z.of_nat i) * (sr / (2 * IZR (len s)))))
          / bigsum (length s) (val s)))
  /\ (totalMagnitude s = 0 -> getSpectralCentroid (frame s w sr) = Fin 0)
  /\ getSpectralCentroid (frame singleBin w 44100)
     = Fin (100 * 44100 / (1024 * 2)).
Proof.
  split; [|split].
  - intros Hpos. rewrite getSpectralCentroid_closed. f_equal.
    unfold meanFrequency. destruct (Rlt_dec 0 (totalMagnitude s)); [|contradiction].
    unfold weightedFrequency, freqPerBin, totalMagnitude.
    f_equal. apply bigsum_ext. intros k _.
    rewrite (Rmult_comm 2). reflexivity.
  - intros Hz. rewrite getSpectralCentroid_closed. f_equal.
    unfold meanFrequency. destruct (Rlt_dec 0 (totalMagnitude s)); [lra|reflexivity].
  - apply singleBin_centroid.
Qed.

Lemma spectral_centroid_weighted_mean_witness :
  getSpectralCentroid (frame singleBin [] 44100)
  = Fin (bigsum (length singleBin)
           (fun i => val singleBin i
                     * (IZR (Z.of_nat i) * (44100 / (2 * IZR (len singleBin)))))
         / bigsum (length singleBin) (val singleBin))
  /\ getSpectralCentroid (frame [0; 0]%Z [] 44100) = Fin 0.
Proof.
  split.
  - apply (proj1 (spectral_centroid_weighted_mean singleBin [] 44100)).
    rewrite singleBin_magnitude. lra.
  - apply (proj1 (proj2 (spectral_centroid_weighted_mean [0; 0]%Z [] 44100))).
    unfold totalMagnitude, val. simpl. lra.
Defined.

Lemma scaled_length (c : R) (s s' : Uint8Array) :
  scaled c s s' -> length s' = length s.
Proof. intros H. symmetry. apply (Forall2_length H). Qed.

Lemma scaled_val (c : R) (s s' : Uint8Array) (k : nat) :
  scaled c s s' -> val s' k = c * val s k.
Proof.
  unfold scaled, val. intros H. revert k.
  induction H as [|x y l l' Hxy _ IH]; intros k.
  - destruct k; simpl; lra.
  - destruct k; simpl; [assumption|apply IH].
Qed.

Lemma scaled_totalMagnitude (c : R) (s s' : Uint8Array) :
  scaled c s s' -> totalMagnitude s' = c * totalMagnitude s.
Proof.
  intros H. unfold totalMagnitude. rewrite (scaled_length c s s' H).
  rewrite <- bigsum_scal. apply bigsum_ext. intros k _.
  apply scaled_val; assumption.
Qed.

Lemma scaled_weightedFrequency (c : R) (s s' : Uint8Array) (fpb : R) :
  scaled c s s' -> weightedFrequency s' fpb = c * weightedFrequency s fpb.
Proof.
  intros H. unfold weightedFrequency. rewrite (scaled_length c s s' H).
  rewrite <- bigsum_scal. apply bigsum_ext. intros k _.
  rewrite (scaled_val c s s' k H). ring.
Qed.

Lemma scaled_weightedDeviation (c : R) (s s' : Uint8Array) (fpb m : R) :
  scaled c s s' -> weightedDeviation s' fpb m = c * weightedDeviation s fpb m.
Proof.
  intros H. unfold weightedDeviation. rewrite (scaled_length c s s' H).
  rewrite <- bigsum_scal. apply bigsum_ext. intros k _.
  rewrite (scaled_val c s s' k H). ring.
Qed.

Lemma scaled_freqPerBin (c : R) (s s' : Uint8Array) (sr : R) :
  scaled c s s' -> freqPerBin s' sr = freqPerBin s sr.
Proof. intros H. unfold freqPerBin, len. rewrite (scaled_length c s s' H). reflexivity. Qed.

Lemma scaled_meanFrequency (c : R) (s s' : Uint8Array) (sr : R) :
  0 < c -> scaled c s s' -> meanFrequency s' sr = meanFrequency s sr.
Proof.
  intros Hc H. unfold meanFrequency.
  rewrite (scaled_freqPerBin c s s' sr H).
  rewrite (scaled_weightedFrequency c s s' _ H).
  rewrite (scaled_totalMagnitude c s s' H).
  destruct (Rlt_dec 0 (totalMagnitude s)) as [Hpos|Hn],
           (Rlt_dec 0 (c * totalMagnitude s)) as [Hpos'|Hn'].
  - field. split; lra.
  - exfalso. apply Hn'. apply Rmult_lt_0_compat; assumption.
  - exfalso. apply Hn. nra.
  - reflexivity.
Qed.

(** C7.  Multiplying every bin of a spectrum by the same positive constant
    changes neither [getSpectralCentroid] nor [getSpectralSpread]. *)
Theorem centroid_spread_scale_invariant
        (c : R) (s s' w : Uint8Array) (sr : R) :
  0 < c ->
  scaled c s s' ->
  getSpectralCentroid (frame s' w sr) = getSpectralCentroid (frame s w sr)
  /\ getSpectralSpread (frame s' w sr) = getSpectralSpread (frame s w sr).
Proof.
  intros Hc H. split.
  - rewrite !getSpectralCentroid_closed. f_equal.
    apply (scaled_meanFrequency c); assumption.
  - rewrite !getSpectralSpread_closed.
    rewrite (scaled_meanFrequency c s s' sr Hc H).
    rewrite (scaled_freqPerBin c s s' sr H).
    rewrite (scaled_weightedDeviation c s s' _ _ H).
    rewrite (scaled_totalMagnitude c s s' H).
    destruct (Rlt_dec 0 (totalMagnitude s)) as [Hpos|Hn],
             (Rlt_dec 0 (c * totalMagnitude s)) as [Hpos'|Hn'].
    + f_equal. f_equal. field. split; lra.
    + exfalso. apply Hn'. apply Rmult_lt_0_compat; assumption.
    + exfalso. apply Hn. nra.
    + reflexivity.
Qed.

Lemma centroid_spread_scale_invariant_witness :
  getSpectralCentroid (frame [20; 0; 6]%Z [] 44100)
  = getSpectralCentroid (frame [10; 0; 3]%Z [] 44100)
  /\ getSpectralSpread (frame [20; 0; 6]%Z [] 44100)
     = getSpectralSpread (frame [10; 0; 3]%Z [] 44100).
Proof.
  apply (centroid_spread_scale_invariant 2); [lra|].
  repeat constructor; lra.
Defined.

(* ================================================================== *)
(** ** Spectral flux and the stored spectrum *)

Lemma flux_term (cur prev : Uint8Array) (k : nat) :
  (k < length cur)%nat ->
  (let diff := (get cur (Z.of_nat k) - get prev (Z.of_nat k))%js in
   if (diff >? 0)%js then diff else Fin 0)
  = Fin (IZR (positiveDifference cur prev k)).
Proof.
  intros Hk. cbv zeta. rewrite get_val by assumption.
  unfold positiveDifference.
  destruct (nth_error prev k) as [p|] eqn:E.
  - assert (Hp : (k < length prev)%nat) by (apply nth_error_Some; congruence).
    rewrite get_val by assumption. unfold val.
    rewrite (nth_error_nth _ _ 0%Z E). fin_arith.
    destruct (Z.max_spec 0 (nth k cur 0%Z - p)) as [[Hlt ->]|[Hle ->]].
    + rewrite gt_fin_true.
      * f_equal. rewrite minus_IZR. reflexivity.
      * apply IZR_lt in Hlt. rewrite minus_IZR in Hlt. lra.
    + rewrite gt_fin_false; [reflexivity|].
      apply IZR_le in Hle. rewrite minus_IZR in Hle. lra.
  - rewrite (get_outside prev).
    + reflexivity.
    + right. apply nth_error_None in E. unfold len. lia.
Qed.

Lemma getSpectralFlux_first (s w : Uint8Array) (sr : R) (this : AudioAnalyzer) :
  s <> [] ->
  prevSpectrum this = None ->
  getSpectralFlux (frame s w sr) this = (Fin 0, {| prevSpectrum := Some s |}).
Proof.
  intros Hs Hp. unfold getSpectralFlux. simpl getFrequencyData.
  rewrite usable_nonempty by assumption. rewrite Hp. reflexivity.
Qed.

Lemma getSpectralFlux_later (s w prev : Uint8Array) (sr : R) (this : AudioAnalyzer) :
  s <> [] ->
  prevSpectrum this = Some prev ->
  getSpectralFlux (frame s w sr) this
  = (Fin (IZR (zsum (length s) (positiveDifference s prev)) / IZR (len s)),
     {| prevSpectrum := Some s |}).
Proof.
  intros Hs Hp. unfold getSpectralFlux. simpl getFrequencyData.
  rewrite usable_nonempty by assumption. rewrite Hp.
  f_equal. rewrite for_array.
  rewrite (rounds_sum _ _ (fun k => IZR (positiveDifference s prev k))).
  - rewrite Rplus_0_l, bigsum_IZR.
    pose proof (len_IZR_pos s Hs). apply div_fin. lra.
  - intros k Hk. apply flux_term; assumption.
Qed.

(** C4.  With no spectrum stored (a new analyzer, or the baseline cleared)
    [getSpectralFlux] returns 0 whatever the magnitudes and stores the
    current spectrum; with a spectrum stored it returns the sum over the
    bins of the positive differences, divided by the bin count, and stores
    the current spectrum in its place. *)
Theorem spectral_flux_baseline
        (s w : Uint8Array) (sr : R) (this : AudioAnalyzer) :
  s <> [] ->
  (prevSpectrum this = None ->
   getSpectralFlux (frame s w sr) this
   = (Fin 0, {| prevSpectrum := Some s |}))
  /\ (forall prev, prevSpectrum this = Some prev ->
      getSpectralFlux (frame s w sr) this
      = (Fin (IZR (zsum (length s)
                     (fun k => match nth_error prev k with
                               | Some p => Z.max 0 (nth k s 0 - p)
                               | None => 0
                               end)%Z)
              / IZR (Z.of_nat (length s))),
         {| prevSpectrum := Some s |})).
Proof.
  intros Hs. split.
  - apply getSpectralFlux_first; assumption.
  - intros prev Hp. apply getSpectralFlux_later; assumption.
Qed.

Lemma spectral_flux_baseline_witness :
  getSpectralFlux (frame [200; 7; 30]%Z [] 44100) newAnalyzer
  = (Fin 0, {| prevSpectrum := Some [200; 7; 30]%Z |})
  /\ getSpectralFlux (frame [10; 50; 30]%Z [] 44100)
                     {| prevSpectrum := Some [200; 7; 30]%Z |}
     = (Fin (IZR 43 / IZR 3), {| prevSpectrum := Some [10; 50; 30]%Z |}).
Proof.
  split.
  - apply (proj1 (spectral_flux_baseline [200; 7; 30]%Z [] 44100 newAnalyzer
                    ltac:(discriminate))).
    reflexivity.
  - apply (proj2 (spectral_flux_baseline [10; 50; 30]%Z [] 44100
                    {| prevSpectrum := Some [200; 7; 30]%Z |}
                    ltac:(discriminate)) [200; 7; 30]%Z).
    reflexivity.
Defined.

(** On one frame a second call of [getSpectralFlux] compares the spectrum
    with itself. *)
Lemma positiveDifference_self (s : Uint8Array) (k : nat) :
  positiveDifference s s k = 0%Z.
Proof.
  unfold positiveDifference. destruct (nth_error s k) eqn:E; [|reflexivity].
  rewrite (nth_error_nth _ _ 0%Z E). lia.
Qed.

Lemma zsum_zero (n : nat) (f : nat -> Z) :
  (forall k, (k < n)%nat -> f k = 0%Z) -> zsum n f = 0%Z.
Proof.
  induction n as [|n IH]; intros H; simpl; [reflexivity|].
  rewrite IH by (intros; apply H; lia). rewrite H by lia. reflexivity.
Qed.

Lemma getSpectralFlux_again (s w : Uint8Array) (sr : R) :
  s <> [] ->
  getSpectralFlux (frame s w sr) {| prevSpectrum := Some s |}
  = (Fin 0, {| prevSpectrum := Some s |}).
Proof.
  intros Hs. rewrite (getSpectralFlux_later s w s) by (assumption || reflexivity).
  rewrite zsum_zero by (intros; apply positiveDifference_self).
  f_equal. f_equal. unfold Rdiv. apply Rmult_0_l.
Qed.

Lemma getSpectralFlux_stores (s w : Uint8Array) (sr : R) (this : AudioAnalyzer) :
  s <> [] ->
  snd (getSpectralFlux (frame s w sr) this) = {| prevSpectrum := Some s |}.
Proof.
  intros Hs. destruct (prevSpectrum this) as [prev|] eqn:E.
  - rewrite (getSpectralFlux_later s w prev) by assumption. reflexivity.
  - rewrite getSpectralFlux_first by assumption. reflexivity.
Qed.

Lemma min_one_zero : JS.min 1 (Fin 0 / 10)%js = Fin 0.
Proof.
  rewrite div_fin by lra. rewrite min_one_fin. f_equal.
  unfold Rdiv. rewrite Rmult_0_l. apply Rmin_right. lra.
Qed.

(** Inside [getAllFeatures] the flux behind [frequencyModulation] is the
    second one of the frame: the field is 0 on every frame with a spectrum. *)
Lemma getAllFeatures_frequencyModulation
      (s w : Uint8Array) (sr : R) (this : AudioAnalyzer) :
  s <> [] ->
  frequencyModulation (fst (getAllFeatures (frame s w sr) this)) = Fin 0.
Proof.
  intros Hs. unfold getAllFeatures.
  pose proof (getSpectralFlux_stores s w sr this Hs) as Hst.
  destruct (getSpectralFlux (frame s w sr) this) as [flux this1].
  simpl in Hst. subst this1.
  unfold getFrequencyModulation.
  rewrite getSpectralFlux_again by assumption.
  cbn [fst frequencyModulation]. apply min_one_zero.
Qed.

Lemma getAllFeatures_spectralFlux
      (s w : Uint8Array) (sr : R) (this : AudioAnalyzer) :
  spectralFlux (fst (getAllFeatures (frame s w sr) this))
  = fst (getSpectralFlux (frame s w sr) this).
Proof.
  unfold getAllFeatures.
  destruct (getSpectralFlux (frame s w sr) this) as [flux this1].
  destruct (getFrequencyModulation (frame s w sr) this1). reflexivity.
Qed.

(** C3.  From a stored all-zero spectrum to 1024 bins at 100, the record of
    [getAllFeatures] reports a flux of 100 and a frequency modulation of 0,
    not [min(1, 100 / 10) = 1]. *)
Theorem frequency_modulation_second_flux (w : Uint8Array) (sr : R) :
  let r := fst (getAllFeatures (frame (repeat 100%Z 1024) w sr)
                               {| prevSpectrum := Some (repeat 0%Z 1024) |}) in
  spectralFlux r = Fin 100
  /\ frequencyModulation r = Fin 0
  /\ JS.min 1 (spectralFlux r / 10)%js = Fin 1.
Proof.
  cbv zeta. 
  assert (Hflux : spectralFlux (fst (getAllFeatures (frame (repeat 100%Z 1024) w sr)
                               {| prevSpectrum := Some (repeat 0%Z 1024) |})) = Fin 100).
  { rewrite getAllFeatures_spectralFlux.
    rewrite (getSpectralFlux_later _ w (repeat 0%Z 1024)).
    - cbn [fst]. f_equal.
      match goal with
      | |- context [zsum ?n ?f] =>
          replace (zsum n f) with 102400%Z by (vm_compute; reflexivity)
      end.
      replace (len (repeat 100%Z 1024)) with 1024%Z by (vm_compute; reflexivity).
      field.
    - discriminate.
    - reflexivity. }
  split; [exact Hflux|]. split.
  - apply getAllFeatures_frequencyModulation. discriminate.
  - rewrite Hflux. rewrite div_fin by lra. rewrite min_one_fin.
    f_equal. apply Rmin_left. lra.
Qed.

(* ================================================================== *)
(** ** Spectral entropy *)

Lemma val_uint8 (s : Uint8Array) (k : nat) :
  Forall uint8 s -> 0 <= val s k <= 255.
Proof.
  intros H. unfold val.
  destruct (Nat.lt_ge_cases k (length s)) as [Hk|Hk].
  - rewrite Forall_forall in H.
    destruct (H (nth k s 0%Z) (nth_In s 0%Z Hk)) as [H0 H1].
    split; apply IZR_le; lia.
  - rewrite nth_overflow by assumption. lra.
Qed.

Lemma bigsum_pos (n : nat) (f : nat -> R) :
  (0 < n)%nat -> (forall k, (k < n)%nat -> 0 < f k) -> 0 < bigsum n f.
Proof.
  intros Hn H. destruct n as [|n]; [lia|]. simpl.
  assert (0 <= bigsum n f).
  { apply bigsum_nonneg. intros k Hk. left. apply H. lia. }
  assert (0 < f n) by (apply H; lia). lra.
Qed.

Lemma length_pos (s : Uint8Array) : s <> [] -> (0 < length s)%nat.
Proof. destruct s; [congruence|simpl; lia]. Qed.

Lemma smoothedTotal_pos (s : Uint8Array) :
  s <> [] -> Forall uint8 s -> 0 < smoothedTotal s.
Proof.
  intros Hs Hu. apply bigsum_pos; [apply length_pos; assumption|].
  intros k _. pose proof (val_uint8 s k Hu). lra.
Qed.

Lemma probability_pos (s : Uint8Array) (k : nat) :
  s <> [] -> Forall uint8 s -> 0 < probability s k.
Proof.
  intros Hs Hu. unfold probability.
  pose proof (val_uint8 s k Hu). pose proof (smoothedTotal_pos s Hs Hu).
  apply Rdiv_lt_0_compat; lra.
Qed.

Lemma ln2_pos : 0 < ln 2.
Proof. pose proof ln_lt_2. lra. Qed.

(** The value of [getSpectralEntropy] before its last division. *)
Lemma getSpectralEntropy_closed (s w : Uint8Array) (sr : R) :
  s <> [] -> Forall uint8 s ->
  getSpectralEntropy (frame s w sr)
  = (Fin (shannonEntropy s) / Fin (log2R (IZR (len s))))%js.
Proof.
  intros Hs Hu. unfold getSpectralEntropy. simpl getFrequencyData.
  rewrite usable_nonempty by assumption.
  assert (Hsum : for_lt 0 (len s) 1
                   (fun i sum => (sum + (get s i + 1))%js) (Fin 0)
                 = Fin (smoothedTotal s)).
  { rewrite for_array. rewrite (rounds_sum _ _ (fun k => val s k + 1)).
    - unfold smoothedTotal. f_equal. lra.
    - intros k Hk. rewrite get_val by assumption. reflexivity. }
  rewrite Hsum. cbv zeta.
  pose proof (smoothedTotal_pos s Hs Hu) as HS.
  rewrite eqb_fin_false by lra.
  rewrite log2_fin by (apply len_IZR_pos; assumption).
  fold (log2R (IZR (len s))).
  f_equal. rewrite for_array.
  rewrite (rounds_ext _ _
    (fun k acc =>
       (acc + Fin (- (probability s k * log2R (probability s k))))%js)).
  - rewrite (rounds_sum _ _
      (fun k => - (probability s k * log2R (probability s k)))).
    + unfold shannonEntropy. f_equal. lra.
    + reflexivity.
  - intros k a Hk. rewrite get_val by assumption. fin_arith.
    rewrite div_fin by lra. fold (probability s k).
    pose proof (probability_pos s k Hs Hu) as Hp.
    rewrite gt_fin_true by assumption.
    rewrite log2_fin by assumption. reflexivity.
Qed.

Lemma log2R_pos (x : R) : 1 < x -> 0 < log2R x.
Proof.
  intros Hx. unfold log2R. apply Rdiv_lt_0_compat; [|apply ln2_pos].
  rewrite <- ln_1. apply ln_increasing; lra.
Qed.

Lemma len_INR (s : Uint8Array) : IZR (len s) = INR (length s).
Proof. unfold len. symmetry. apply INR_IZR_INZ. Qed.



(** A spectrum of one bin: the entropy and its normaliser [log2 1] are both
    0, and the quotient is NaN. *)
Lemma getSpectralEntropy_one_bin (v : Z) (w : Uint8Array) (sr : R) :
  uint8 v -> getSpectralEntropy (frame [v] w sr) = NaN.
Proof.
  intros Hv.
  rewrite getSpectralEntropy_closed;
    [|discriminate|constructor; [exact Hv|constructor]].
  assert (Hv' : 0 < IZR v + 1) by (destruct Hv as [Hv _]; apply IZR_le in Hv; lra).
  assert (Hp : probability [v] 0 = 1).
  { unfold probability, smoothedTotal, val. simpl. field. lra. }
  assert (H1 : log2R 1 = 0).
  { unfold log2R. rewrite ln_1. unfold Rdiv. apply Rmult_0_l. }
  replace (shannonEntropy [v]) with 0.
  - change (IZR (len [v])) with 1. rewrite H1. apply div_zero_zero.
  - unfold shannonEntropy. simpl. rewrite Hp, H1. lra.
Qed.

Lemma div_le_one (a b : R) : 0 < b -> a <= b -> a / b <= 1.
Proof.
  intros Hb Hab. apply (Rmult_le_reg_r b); [assumption|].
  unfold Rdiv. rewrite Rmult_assoc, Rinv_l by lra. lra.
Qed.

Lemma div_nonneg (a b : R) : 0 <= a -> 0 < b -> 0 <= a / b.
Proof.
  intros Ha Hb. apply Rmult_le_pos; [assumption|].
  left. apply Rinv_0_lt_compat. assumption.
Qed.

Lemma ln_le_pred (x : R) : 0 < x -> ln x <= x - 1.
Proof.
  intros Hx. pose proof (exp_ineq1_le (ln x)) as H.
  rewrite exp_ln in H by assumption. lra.
Qed.

Lemma ln_le_mono (x y : R) : 0 < x -> x <= y -> ln x <= ln y.
Proof.
  intros Hx [Hlt|Heq]; [|subst; lra]. left. apply ln_increasing; assumption.
Qed.

Lemma bigsum_ge_term (n k : nat) (f : nat -> R) :
  (forall j, (j < n)%nat -> 0 <= f j) -> (k < n)%nat -> f k <= bigsum n f.
Proof.
  induction n as [|n IH]; intros Hf Hk; [lia|]. simpl.
  assert (0 <= bigsum n f) by (apply bigsum_nonneg; intros; apply Hf; lia).
  assert (0 <= f n) by (apply Hf; lia).
  destruct (Nat.eq_dec k n) as [->|Hne]; [lra|].
  assert (f k <= bigsum n f) by (apply IH; [intros; apply Hf; lia|lia]).
  lra.
Qed.

Lemma probability_le_1 (s : Uint8Array) (k : nat) :
  Forall uint8 s -> (k < length s)%nat -> probability s k <= 1.
Proof.
  intros Hu Hk.
  assert (Hs : s <> []) by (destruct s; [simpl in Hk; lia|discriminate]).
  pose proof (smoothedTotal_pos s Hs Hu) as HS.
  unfold probability. apply div_le_one; [assumption|].
  unfold smoothedTotal.
  apply (bigsum_ge_term (length s) k (fun j => val s j + 1)); [|assumption].
  intros j _. pose proof (val_uint8 s j Hu). lra.
Qed.

Lemma probability_total (s : Uint8Array) :
  s <> [] -> Forall uint8 s -> bigsum (length s) (probability s) = 1.
Proof.
  intros Hs Hu. pose proof (smoothedTotal_pos s Hs Hu) as HS.
  unfold probability.
  rewrite (bigsum_ext _ _ (fun k => / smoothedTotal s * (val s k + 1))).
  - rewrite bigsum_scal. fold (smoothedTotal s). field. lra.
  - intros k _. unfold Rdiv. ring.
Qed.

(** One term of the entropy is not negative ... *)
Lemma entropy_term_nonneg (p : R) : 0 < p -> p <= 1 -> 0 <= - (p * log2R p).
Proof.
  intros H0 H1. unfold log2R.
  assert (ln p <= 0) by (rewrite <- ln_1; apply ln_le_mono; assumption).
  pose proof ln2_pos.
  assert (0 <= p * (- ln p) * / ln 2).
  { apply Rmult_le_pos; [apply Rmult_le_pos; lra|].
    left. apply Rinv_0_lt_compat. assumption. }
  unfold Rdiv. lra.
Qed.

(** ... and is bounded as in Gibbs' inequality against the flat
    distribution over [n] bins. *)
Lemma entropy_term_gibbs (p n : R) :
  0 < p -> 0 < n ->
  - (p * log2R p) <= p * log2R n + (/ n - p) / ln 2.
Proof.
  intros Hp Hn. unfold log2R. pose proof ln2_pos as H2.
  assert (Hq : 0 < / (n * p)).
  { apply Rinv_0_lt_compat. apply Rmult_lt_0_compat; assumption. }
  pose proof (ln_le_pred (/ (n * p)) Hq) as H.
  rewrite ln_Rinv in H by (apply Rmult_lt_0_compat; assumption).
  rewrite ln_mult in H by assumption.
  assert (Hm : p * (- (ln n + ln p)) <= p * (/ (n * p) - 1)).
  { apply Rmult_le_compat_l; lra. }
  replace (p * (/ (n * p) - 1)) with (/ n - p) in Hm by (field; split; lra).
  assert (Hd : (- (p * ln p)) * / ln 2 <= (p * ln n + (/ n - p)) * / ln 2).
  { apply Rmult_le_compat_r; [left; apply Rinv_0_lt_compat; assumption|lra]. }
  unfold Rdiv. lra.
Qed.

Lemma shannonEntropy_nonneg (s : Uint8Array) :
  s <> [] -> Forall uint8 s -> 0 <= shannonEntropy s.
Proof.
  intros Hs Hu. apply bigsum_nonneg. intros k Hk.
  apply entropy_term_nonneg.
  - apply probability_pos; assumption.
  - apply probability_le_1; assumption.
Qed.

Lemma shannonEntropy_max (s : Uint8Array) :
  s <> [] -> Forall uint8 s -> shannonEntropy s <= log2R (IZR (len s)).
Proof.
  intros Hs Hu. pose proof (len_IZR_pos s Hs) as Hn.
  set (n := IZR (len s)) in *.
  unfold shannonEntropy.
  apply Rle_trans with
    (bigsum (length s)
       (fun k => log2R n * probability s k
                 + (/ ln 2 * / n + - / ln 2 * probability s k))).
  - apply bigsum_le. intros k Hk.
    pose proof (entropy_term_gibbs (probability s k) n
                  (probability_pos s k Hs Hu) Hn) as H.
    eapply Rle_trans; [exact H|]. right. unfold Rdiv. ring.
  - rewrite bigsum_plus, bigsum_plus, !bigsum_scal, bigsum_const.
    rewrite (probability_total s Hs Hu).
    replace (INR (length s)) with n by (unfold n; apply len_INR).
    pose proof ln2_pos. right. field. split; lra.
Qed.

(** For at least two bins the normalised entropy is a number of [0,1]. *)
Lemma getSpectralEntropy_range (s w : Uint8Array) (sr : R) :
  (2 <= length s)%nat -> Forall uint8 s ->
  JS.within 0 1 (getSpectralEntropy (frame s w sr)).
Proof.
  intros Hn Hu.
  assert (Hs : s <> []) by (destruct s; [simpl in Hn; lia|discriminate]).
  rewrite getSpectralEntropy_closed by assumption.
  assert (Hpos : 0 < log2R (IZR (len s))).
  { apply log2R_pos. rewrite len_INR. apply le_INR in Hn. simpl in Hn. lra. }
  rewrite div_fin by lra.
  exists (shannonEntropy s / log2R (IZR (len s))). split; [reflexivity|].
  pose proof (shannonEntropy_nonneg s Hs Hu).
  pose proof (shannonEntropy_max s Hs Hu).
  split; [apply div_nonneg|apply div_le_one]; assumption.
Qed.

Lemma uint8_check (s : Uint8Array) :
  forallb (fun x => (0 <=? x)%Z && (x <? 256)%Z) s = true -> Forall uint8 s.
Proof.
  intros H. apply Forall_forall. intros x Hx.
  rewrite forallb_forall in H. specialize (H x Hx).
  apply andb_true_iff in H. destruct H as [H0 H1].
  unfold uint8. split; [apply Z.leb_le|apply Z.ltb_lt]; assumption.
Qed.



Lemma singleBin_uint8 : Forall uint8 singleBin.
Proof. apply uint8_check. vm_compute. reflexivity. Qed.

Lemma singleBin_nonempty : singleBin <> [].
Proof. unfold singleBin. intros H. apply app_eq_nil in H. destruct H as [_ H]. discriminate H. Qed.




(* ================================================================== *)
(** ** Tonality *)


(* ================================================================== *)
(** ** Pitch *)

(** [signal]: the waveform normalised to [-1, 1). *)
Lemma getf_signal (w : Uint8Array) (k : nat) :
  (k < length w)%nat ->
  getf (map (fun x => (IZR x - 128) / 128) w) (Z.of_nat k)
  = Fin ((val w k - 128) / 128).
Proof.
  intros Hk. rewrite getf_nth by (rewrite length_map; assumption).
  f_equal. unfold val.
  set (f := fun x : Z => (IZR x - 128) / 128).
  transitivity (nth k (map f w) (f 0%Z)).
  - apply nth_indep. rewrite length_map. assumption.
  - apply (map_nth f w 0%Z k).
Qed.

(** For an integer [p], [p < x] is [p < ceil x]: the period loop of
    [getPitch] runs over the integers below its real bound. *)
Lemma lt_Zceil (p : Z) (x : R) : (p < Zceil x)%Z <-> IZR p < x.
Proof.
  pose proof (Zceil_bound x) as [Hlo Hhi]. split; intros H.
  - assert (p <= Zceil x - 1)%Z as Hle by lia.
    apply IZR_le in Hle. rewrite minus_IZR in Hle. lra.
  - apply lt_IZR. lra.
Qed.

(** What [getPitch] returns is 0 or [sampleRate / p] for a searched period
    [p]: one at least [floor(sampleRate / 1000)] and below both
    [floor(sampleRate / 50)] and half the buffer length. *)
Lemma getPitch_searched (s w : Uint8Array) (sr : R) :
  getPitch (frame s w sr) = Fin 0
  \/ exists p : Z,
       (0 < p)%Z /\ (minPeriod sr <= p)%Z /\ IZR p < periodBound w sr
       /\ getPitch (frame s w sr) = Fin (sr / IZR p).
Proof.
  destruct w as [|x w'] eqn:E; [left; reflexivity|].
  rewrite <- E. assert (Hw : w <> []) by (subst; discriminate). clear E.
  unfold getPitch. simpl getTimeDomainData. simpl getSampleRate.
  rewrite usable_nonempty by assumption. cbv zeta.
  fold (minPeriod sr). fold (maxPeriod sr). fold (periodBound w sr).
  rewrite for_lt_rounds by lia. rewrite trip_unit.
  match goal with
  | |- context [rounds ?n ?f ?a] =>
      assert (Hinv : (fun acc : Z * number =>
                        fst acc = 0%Z
                        \/ (minPeriod sr <= fst acc)%Z
                           /\ IZR (fst acc) < periodBound w sr)
                       (rounds n f a));
      [apply rounds_inv|destruct (rounds n f a) as [bestPeriod bestCorrelation]]
  end.
  - left. reflexivity.
  - intros k [bp bc] Hk Hacc. cbv beta.
    match goal with
    | |- context [if ?c then _ else _] => destruct c
    end; [|exact Hacc].
    right. cbn [fst]. split; [lia|].
    apply lt_Zceil. lia.
  - cbn [fst] in Hinv. destruct (Z.ltb_spec 0 bestPeriod) as [Hpos|Hle].
    + right. exists bestPeriod.
      destruct Hinv as [H0|[Hlo Hhi]]; [lia|].
      repeat split; try assumption.
      apply div_fin. apply Rgt_not_eq. apply IZR_lt. assumption.
    + left. reflexivity.
Qed.


(** A buffer shorter than two shortest periods has no period to search. *)
Lemma getPitch_short_buffer (s w : Uint8Array) (sr : R) :
  (len w < 2 * minPeriod sr)%Z -> getPitch (frame s w sr) = Fin 0.
Proof.
  intros Hshort.
  destruct (getPitch_searched s w sr) as [H0|[p [Hpos [Hlo [Hhi Hp]]]]];
    [assumption|exfalso].
  unfold periodBound in Hhi.
  pose proof (Rmin_r (IZR (maxPeriod sr)) (IZR (len w) / 2)).
  assert (IZR (len w) < IZR (2 * minPeriod sr)) as Hlt by (apply IZR_lt; assumption).
  rewrite mult_IZR in Hlt. apply IZR_le in Hlo. lra.
Qed.

(** *** Silence and constant waveforms *)



Lemma correlation_closed (w : Uint8Array) (p : nat) :
  (p <= length w)%nat ->
  for_lt 0 (len w - Z.of_nat p) 1
    (fun i correlation =>
       (correlation
        + getf (map (fun x => ((IZR x - 128) / 128)%R) w) i
          * getf (map (fun x => ((IZR x - 128) / 128)%R) w) (i + Z.of_nat p))%js)
    (Fin 0)
  = Fin (autocorrelation w p).
Proof.
  intros Hp. rewrite for_lt_rounds by lia. rewrite trip_unit.
  replace (Z.to_nat (len w - Z.of_nat p - 0)) with (length w - p)%nat
    by (unfold len; lia).
  rewrite (rounds_ext _ _
    (fun k acc => (acc + Fin (sample w k * sample w (k + p)))%js)).
  - rewrite (rounds_sum _ _ (fun k => sample w k * sample w (k + p)))
      by reflexivity.
    unfold autocorrelation. f_equal. lra.
  - intros k a Hk.
    replace (0 + Z.of_nat k * 1)%Z with (Z.of_nat k) by lia.
    replace (Z.of_nat k + Z.of_nat p)%Z with (Z.of_nat (k + p)) by lia.
    rewrite !getf_signal by lia. reflexivity.
Qed.

Lemma autocorrelation_constant (w : Uint8Array) (c : Z) (p : nat) :
  Forall (eq c) w -> (p <= length w)%nat ->
  autocorrelation w p
  = INR (length w - p) * ((IZR c - 128) / 128 * ((IZR c - 128) / 128)).
Proof.
  intros Hall Hp. unfold autocorrelation. rewrite <- bigsum_const.
  apply bigsum_ext. intros k Hk. unfold sample.
  rewrite !(val_all w c) by (assumption || lia). reflexivity.
Qed.

(** One round of the period loop, against the autocorrelation. *)
Lemma pitch_round (w : Uint8Array) (p : nat) (bestPeriod : Z) (best : R) :
  (p <= length w)%nat ->
  (if (for_lt 0 (len w - Z.of_nat p) 1
         (fun i correlation =>
            (correlation
             + getf (map (fun x => ((IZR x - 128) / 128)%R) w) i
               * getf (map (fun x => ((IZR x - 128) / 128)%R) w)
                      (i + Z.of_nat p))%js)
         (Fin 0) >? Fin best)%js
   then (Z.of_nat p,
         for_lt 0 (len w - Z.of_nat p) 1
           (fun i correlation =>
              (correlation
               + getf (map (fun x => ((IZR x - 128) / 128)%R) w) i
                 * getf (map (fun x => ((IZR x - 128) / 128)%R) w)
                        (i + Z.of_nat p))%js)
           (Fin 0))
   else (bestPeriod, Fin best))
  = if Rlt_dec best (autocorrelation w p)
    then (Z.of_nat p, Fin (autocorrelation w p))
    else (bestPeriod, Fin best).
Proof.
  intros Hp. rewrite correlation_closed by assumption.
  unfold JS.gt. destruct (Rlt_dec best (autocorrelation w p)); reflexivity.
Qed.

Lemma minPeriod_pos (sr : R) : 1000 <= sr -> (1 <= minPeriod sr)%Z.
Proof. intros H. apply Zfloor_lub. lra. Qed.

Lemma minPeriod_lt_maxPeriod (sr : R) :
  1000 <= sr -> (minPeriod sr < maxPeriod sr)%Z.
Proof.
  intros H. pose proof (minPeriod_pos sr H) as H1.
  assert (20 * minPeriod sr <= maxPeriod sr)%Z; [|lia].
  apply Zfloor_lub. rewrite mult_IZR.
  pose proof (Zfloor_bound (sr / 1000)) as [Hfl _]. fold (minPeriod sr) in Hfl.
  lra.
Qed.

(** A constant waveform off the centre: every autocorrelation is positive
    and the shortest searched period has the largest one, so the detector
    answers [sampleRate / floor(sampleRate / 1000)]. *)
Lemma getPitch_constant (s w : Uint8Array) (c : Z) (sr : R) :
  c <> 128%Z -> Forall (eq c) w -> 1000 <= sr ->
  (2 * minPeriod sr < len w)%Z ->
  getPitch (frame s w sr) = Fin (sr / IZR (minPeriod sr)).
Proof.
  intros Hc Hall Hsr Hlen.
  pose proof (minPeriod_pos sr Hsr) as Hmin.
  pose proof (minPeriod_lt_maxPeriod sr Hsr) as Hmax.
  assert (Hw : w <> []).
  { intros ->. change (len (@nil Z)) with 0%Z in Hlen. lia. }
  set (m := Z.to_nat (minPeriod sr)).
  assert (Hm : Z.of_nat m = minPeriod sr) by (unfold m; lia).
  set (d2 := (IZR c - 128) / 128 * ((IZR c - 128) / 128)).
  assert (Hd2 : 0 < d2).
  { unfold d2. assert ((IZR c - 128) / 128 <> 0).
    { intros H0. apply Hc. apply eq_IZR.
      apply (Rmult_eq_compat_r 128) in H0. unfold Rdiv in H0.
      rewrite Rmult_assoc, Rinv_l, Rmult_0_l in H0 by lra. lra. }
    nra. }
  assert (Hhi : (minPeriod sr < Zceil (periodBound w sr))%Z).
  { apply lt_Zceil. unfold periodBound. apply Rmin_glb_lt.
    - apply IZR_lt. assumption.
    - apply IZR_lt in Hlen. rewrite mult_IZR in Hlen. lra. }
  assert (Hin : forall k, (k < Z.to_nat (Zceil (periodBound w sr) - minPeriod sr))%nat ->
                          (m + k < length w)%nat).
  { intros k Hk.
    assert (Hlt : (minPeriod sr + Z.of_nat k < Zceil (periodBound w sr))%Z) by lia.
    apply lt_Zceil in Hlt. unfold periodBound in Hlt.
    pose proof (Rmin_r (IZR (maxPeriod sr)) (IZR (len w) / 2)) as Hr.
    assert (Hlt2 : IZR (minPeriod sr + Z.of_nat k) < IZR (len w)).
    { pose proof (len_IZR_pos w Hw). lra. }
    apply lt_IZR in Hlt2. unfold len in Hlt2. lia. }
  unfold getPitch. simpl getTimeDomainData. simpl getSampleRate.
  rewrite usable_nonempty by assumption. cbv zeta.
  fold (minPeriod sr). fold (maxPeriod sr). fold (periodBound w sr).
  rewrite for_lt_rounds by lia. rewrite trip_unit.
  match goal with
  | |- context [rounds ?n ?f ?a] =>
      assert (Hloop : forall j, (j < n)%nat ->
                rounds (S j) f a = (minPeriod sr, Fin (autocorrelation w m)))
  end.
  { induction j as [|j IH]; intros Hj.
    - change (rounds 1 ?f ?a) with (f 0%nat a). cbv beta iota.
      replace (minPeriod sr + Z.of_nat 0 * 1)%Z with (Z.of_nat m) by lia.
      rewrite pitch_round by (specialize (Hin 0%nat Hj); lia).
      rewrite (autocorrelation_constant w c m Hall) by (specialize (Hin 0%nat Hj); lia).
      fold d2.
      destruct (Rlt_dec 0 (INR (length w - m) * d2)) as [_|Hn].
      + rewrite Hm. reflexivity.
      + exfalso. apply Hn. apply Rmult_lt_0_compat; [|assumption].
        apply lt_0_INR. specialize (Hin 0%nat Hj). lia.
    - change (rounds (S (S j)) ?f ?a) with (f (S j) (rounds (S j) f a)).
      rewrite IH by lia. cbv beta iota.
      replace (minPeriod sr + Z.of_nat (S j) * 1)%Z with (Z.of_nat (m + S j)) by lia.
      rewrite pitch_round by (specialize (Hin (S j) Hj); lia).
      rewrite !(autocorrelation_constant w c) by (try assumption; specialize (Hin (S j) Hj); lia).
      fold d2.
      destruct (Rlt_dec (INR (length w - m) * d2) (INR (length w - (m + S j)) * d2))
        as [Hlt|_]; [|reflexivity].
      exfalso. apply Rmult_lt_reg_r in Hlt; [|assumption].
      apply INR_lt in Hlt. lia. }
  match goal with
  | |- context [rounds ?n ?f ?a] =>
      destruct n as [|n'] eqn:En; [lia|rewrite (Hloop n') by lia]
  end.
  destruct (Z.ltb_spec 0 (minPeriod sr)) as [_|Hle]; [|lia].
  apply div_fin. apply Rgt_not_eq. apply IZR_lt. lia.
Qed.

(* ================================================================== *)
(** ** Amplitude modulation *)

Lemma rounds_length {A : Type} (n : nat) (f : nat -> list A -> list A) :
  (forall k l, length (f k l) = S (length l)) ->
  length (rounds n f []) = n.
Proof.
  intros H. induction n as [|n IH]; simpl; [reflexivity|].
  rewrite H, IH. reflexivity.
Qed.

(** A waveform of [k] full windows gives [k - 1] envelope samples: the
    loop stops before the last window. *)
Lemma envelopeCount_full_windows (w : Uint8Array) (k : Z) :
  (1 <= k)%Z -> len w = (k * windowSize)%Z ->
  envelopeCount w = Z.to_nat (k - 1).
Proof.
  intros Hk Hlen. unfold envelopeCount, trip, windowSize in *. rewrite Hlen.
  f_equal.
  replace (k * 64 - 64 - 0 + 64 - 1)%Z with (63 + (k - 1) * 64)%Z by lia.
  rewrite Z.div_add by lia. reflexivity.
Qed.

(** With fewer than two rounds of the window loop the result is 0. *)
Lemma getAmplitudeModulation_few (s w : Uint8Array) (sr : R) :
  (envelopeCount w < 2)%nat ->
  getAmplitudeModulation (frame s w sr) = Fin 0.
Proof.
  intros Hfew. destruct w as [|x w'] eqn:E; [reflexivity|].
  rewrite <- E in *. assert (Hw : w <> []) by (subst; discriminate). clear E.
  unfold getAmplitudeModulation. simpl getTimeDomainData.
  rewrite usable_nonempty by assumption.
  rewrite for_lt_rounds by (unfold windowSize; lia).
  fold (envelopeCount w). cbv zeta.
  match goal with
  | |- context [rounds ?n ?f ?a] =>
      assert (Hlen : length (rounds n f a) = n)
  end.
  { apply rounds_length. intros k l. rewrite length_app. simpl. lia. }
  unfold len at 1. rewrite Hlen.
  destruct (Z.ltb_spec (Z.of_nat (envelopeCount w)) 2) as [_|Hge]; [reflexivity|lia].
Qed.

(** C9.  On a waveform of exactly two windows of 64 samples, the first at
    the centre 128 and the second at 255, [getAmplitudeModulation] takes one
    envelope sample only and returns 0. *)
Theorem amplitude_modulation_two_windows (s : Uint8Array) (sr : R) :
  len twoWindows = (2 * windowSize)%Z
  /\ envelopeCount twoWindows = 1%nat
  /\ getAmplitudeModulation (frame s twoWindows sr) = Fin 0.
Proof.
  assert (Hcount : envelopeCount twoWindows = 1%nat) by (vm_compute; reflexivity).
  split; [vm_compute; reflexivity|]. split; [exact Hcount|].
  apply getAmplitudeModulation_few. rewrite Hcount. lia.
Qed.

(* ================================================================== *)
(** ** The feature record *)

Lemma getAllFeatures_spectralEntropy (e : AudioEngine) (this : AudioAnalyzer) :
  spectralEntropy (fst (getAllFeatures e this)) = getSpectralEntropy e.
Proof.
  unfold getAllFeatures.
  destruct (getSpectralFlux e this) as [flux this1].
  destruct (getFrequencyModulation e this1). reflexivity.
Qed.

(** C1.  On a spectrum of a single bin the [spectralEntropy] field of the
    record of [getAllFeatures] is NaN, not a finite number: the entropy 0 is
    divided by [log2 1 = 0]. *)
Theorem features_one_bin_entropy_nan
        (v : Z) (w : Uint8Array) (sr : R) (this : AudioAnalyzer) :
  uint8 v ->
  spectralEntropy (fst (getAllFeatures (frame [v] w sr) this)) = NaN
  /\ ~ JS.finite (spectralEntropy (fst (getAllFeatures (frame [v] w sr) this))).
Proof.
  intros Hv. rewrite getAllFeatures_spectralEntropy.
  rewrite getSpectralEntropy_one_bin by assumption.
  split; [reflexivity|]. intros [r Hr]. discriminate.
Qed.

Lemma features_one_bin_entropy_nan_witness :
  spectralEntropy
    (fst (getAllFeatures (frame [0%Z] silentWaveform 44100) newAnalyzer)) = NaN
  /\ ~ JS.finite
       (spectralEntropy
          (fst (getAllFeatures (frame [0%Z] silentWaveform 44100) newAnalyzer))).
Proof.
  apply (features_one_bin_entropy_nan 0 silentWaveform 44100 newAnalyzer).
  unfold uint8. lia.
Defined.

(* ================================================================== *)
(** ** Silence *)

Lemma Forall_repeat {A : Type} (P : A -> Prop) (x : A) (n : nat) :
  P x -> Forall P (repeat x n).
Proof.
  intros H. apply Forall_forall. intros y Hy.
  apply repeat_spec in Hy. subst. assumption.
Qed.






(* ================================================================== *)
(** ** Entropy: the claims *)




(* ================================================================== *)
(** ** Pitch: the claims *)

Lemma minPeriod_44100 : minPeriod 44100 = 44%Z.
Proof. unfold minPeriod. apply Zfloor_eq. lra. Qed.

Lemma offsetWaveform_pitch (s : Uint8Array) :
  getPitch (frame s offsetWaveform 44100) = Fin (44100 / 44).
Proof.
  rewrite (getPitch_constant s offsetWaveform 129 44100).
  - rewrite minPeriod_44100. reflexivity.
  - discriminate.
  - apply Forall_repeat. reflexivity.
  - lra.
  - rewrite minPeriod_44100.
    replace (len offsetWaveform) with 2048%Z by (vm_compute; reflexivity). lia.
Qed.

(** C5.  At 44100 Hz the shortest searched period is 44 samples, and on a
    waveform held one step above the centre [getPitch] returns
    [44100 / 44], which is above 1000 Hz. *)
Theorem pitch_above_ceiling (s : Uint8Array) :
  getPitch (frame s offsetWaveform 44100) = Fin (44100 / 44)
  /\ 1000 < 44100 / 44.
Proof. split; [apply offsetWaveform_pitch|lra]. Qed.

(** C10.  A constant waveform off the centre 128, longer than two shortest
    periods, makes [getPitch] return [sampleRate / floor(sampleRate /
    1000)] (sample rates of at least 1000 Hz, so that the shortest period is
    at least one sample). *)
Theorem pitch_constant_waveform
        (s w : Uint8Array) (c : Z) (sr : R) :
  1000 <= sr ->
  c <> 128%Z ->
  Forall (eq c) w ->
  (2 * Zfloor (sr / 1000) < Z.of_nat (length w))%Z ->
  getPitch (frame s w sr) = Fin (sr / IZR (Zfloor (sr / 1000))).
Proof.
  intros Hsr Hc Hall Hlen. apply (getPitch_constant s w c sr); assumption.
Qed.

Lemma pitch_constant_waveform_witness :
  getPitch (frame silentSpectrum offsetWaveform 44100)
  = Fin (44100 / IZR (Zfloor (44100 / 1000))).
Proof.
  apply (pitch_constant_waveform silentSpectrum offsetWaveform 129 44100).
  - lra.
  - discriminate.
  - apply Forall_repeat. reflexivity.
  - fold (minPeriod 44100). rewrite minPeriod_44100.
    unfold offsetWaveform. rewrite repeat_length. lia.
Defined.

(* ================================================================== *)
(** ** Further properties of the loudness features *)

Lemma sample_range (w : Uint8Array) (k : nat) :
  Forall uint8 w -> -1 <= sample w k <= 1.
Proof.
  intros Hu. unfold sample. pose proof (val_uint8 w k Hu). lra.
Qed.

Lemma bigsum_bound (n : nat) (f : nat -> R) (b : R) :
  (forall k, (k < n)%nat -> f k <= b) -> bigsum n f <= INR n * b.
Proof.
  intros H. rewrite <- bigsum_const. apply bigsum_le. assumption.
Qed.

Lemma mean_bound (n : nat) (f : nat -> R) (b : R) :
  (0 < n)%nat -> (forall k, (k < n)%nat -> f k <= b) ->
  bigsum n f / INR n <= b.
Proof.
  intros Hn H. apply lt_0_INR in Hn.
  pose proof (bigsum_bound n f b H).
  apply (Rmult_le_reg_r (INR n)); [assumption|].
  unfold Rdiv. rewrite Rmult_assoc, Rinv_l by lra. lra.
Qed.

Lemma getRMS_sample (s w : Uint8Array) (sr : R) :
  w <> [] ->
  getRMS (frame s w sr)
  = Fin (sqrt (bigsum (length w) (fun k => sample w k * sample w k)
               / INR (length w))).
Proof.
  intros Hw. rewrite getRMS_closed by assumption. rewrite len_INR. reflexivity.
Qed.



Lemma max_fin (a b : R) : JS.max (Fin a) (Fin b) = Fin (Rmax a b).
Proof.
  unfold JS.max, JS.gt, Rmax.
  destruct (Rlt_dec a b), (Rle_dec a b); try reflexivity; try lra.
  f_equal. lra.
Qed.

Lemma running_max (a b : R) :
  (if (Fin b >? Fin a)%js then Fin b else Fin a) = Fin (Rmax a b).
Proof.
  unfold JS.gt, Rmax.
  destruct (Rlt_dec a b), (Rle_dec a b); try reflexivity; try lra.
  f_equal. lra.
Qed.

Lemma bigmax_nonneg (n : nat) (f : nat -> R) : 0 <= bigmax n f.
Proof.
  induction n as [|n IH]; simpl; [lra|].
  eapply Rle_trans; [exact IH|apply Rmax_l].
Qed.

Lemma bigmax_upper (n k : nat) (f : nat -> R) :
  (k < n)%nat -> f k <= bigmax n f.
Proof.
  induction n as [|n IH]; intros Hk; [lia|]. simpl.
  destruct (Nat.eq_dec k n) as [->|Hne]; [apply Rmax_r|].
  eapply Rle_trans; [apply IH; lia|apply Rmax_l].
Qed.

Lemma bigmax_attained (n : nat) (f : nat -> R) :
  (0 < n)%nat -> (forall k, (k < n)%nat -> 0 <= f k) ->
  exists k, (k < n)%nat /\ bigmax n f = f k.
Proof.
  induction n as [|n IH]; intros Hn Hf; [lia|]. simpl.
  destruct (Rle_dec (bigmax n f) (f n)) as [Hle|Hgt].
  - exists n. split; [lia|]. apply Rmax_right. assumption.
  - destruct n as [|n'].
    + exfalso. apply Hgt. simpl. apply Hf. lia.
    + destruct IH as [k [Hk Hmax]]; [lia|intros; apply Hf; lia|].
      exists k. split; [lia|]. rewrite Rmax_left by lra. assumption.
Qed.

Lemma bigmax_le (n : nat) (f : nat -> R) (b : R) :
  0 <= b -> (forall k, (k < n)%nat -> f k <= b) -> bigmax n f <= b.
Proof.
  intros Hb H. induction n as [|n IH]; simpl; [assumption|].
  apply Rmax_lub; [apply IH; intros; apply H; lia|apply H; lia].
Qed.

Lemma getPeak_closed (s w : Uint8Array) (sr : R) :
  getPeak (frame s w sr) = Fin (bigmax (length w) (deviation w)).
Proof.
  destruct w as [|x w'] eqn:E; [reflexivity|].
  rewrite <- E in *. assert (Hw : w <> []) by (subst; discriminate). clear E.
  unfold getPeak. simpl getTimeDomainData.
  rewrite usable_nonempty by assumption. rewrite for_array.
  assert (Hgen : forall n, (n <= length w)%nat ->
    rounds n
      (fun k => (fun i max =>
         let normalized := (JS.abs (get w i - 128) / 128)%js in
         if (normalized >? max)%js then normalized else max) (Z.of_nat k))
      (Fin 0)
    = Fin (bigmax n (deviation w))).
  { induction n as [|n IH]; intros Hn; [reflexivity|].
    change (rounds (S n) ?f ?a) with (f n (rounds n f a)).
    rewrite IH by lia. cbv beta zeta.
    rewrite get_val by lia. fin_arith. rewrite div_fin by lra.
    rewrite running_max. reflexivity. }
  apply Hgen. lia.
Qed.

(** X2.  [getPeak] is the largest distance of a sample from the centre 128,
    divided by 128: no sample exceeds it, a sample attains it, and for a
    byte waveform it lies in [0, 1]. *)
Theorem peak_is_maximum (s w : Uint8Array) (sr : R) :
  w <> [] ->
  exists p,
    getPeak (frame s w sr) = Fin p
    /\ (forall k, (k < length w)%nat -> Rabs (val w k - 128) / 128 <= p)
    /\ (exists k, (k < length w)%nat /\ p = Rabs (val w k - 128) / 128)
    /\ (Forall uint8 w -> 0 <= p <= 1).
Proof.
  intros Hw. exists (bigmax (length w) (deviation w)).
  split; [apply getPeak_closed|]. split; [|split].
  - intros k Hk. apply (bigmax_upper (length w) k (deviation w)). assumption.
  - apply (bigmax_attained (length w) (deviation w)).
    + apply length_pos. assumption.
    + intros k _. unfold deviation. apply div_nonneg; [apply Rabs_pos|lra].
  - intros Hu. split; [apply bigmax_nonneg|].
    apply bigmax_le; [lra|]. intros k _. unfold deviation.
    apply div_le_one; [lra|].
    pose proof (val_uint8 w k Hu). apply Rabs_le. lra.
Qed.

Lemma peak_is_maximum_witness :
  exists p,
    getPeak (frame [] [130; 0; 255]%Z 44100) = Fin p
    /\ (forall k, (k < 3)%nat -> Rabs (val [130; 0; 255]%Z k - 128) / 128 <= p)
    /\ (exists k, (k < 3)%nat /\ p = Rabs (val [130; 0; 255]%Z k - 128) / 128)
    /\ (Forall uint8 [130; 0; 255]%Z -> 0 <= p <= 1).
Proof.
  apply (peak_is_maximum [] [130; 0; 255]%Z 44100). discriminate.
Defined.

Lemma sqrt_le_of_sqr (x p : R) : 0 <= p -> x <= p * p -> sqrt x <= p.
Proof.
  intros Hp Hx. rewrite <- (sqrt_square p) by assumption.
  apply sqrt_le_1_alt. assumption.
Qed.


(* ================================================================== *)
(** ** Further properties of centroid and spread *)

Lemma freqPerBin_nonneg (s : Uint8Array) (sr : R) :
  s <> [] -> 0 <= sr -> 0 <= freqPerBin s sr.
Proof.
  intros Hs Hsr. unfold freqPerBin. pose proof (len_IZR_pos s Hs).
  apply div_nonneg; lra.
Qed.

Lemma binFrequency_range (s : Uint8Array) (sr : R) (k : nat) :
  s <> [] -> 0 <= sr -> (k < length s)%nat ->
  0 <= IZR (Z.of_nat k) * freqPerBin s sr <= topFrequency s sr.
Proof.
  intros Hs Hsr Hk. pose proof (freqPerBin_nonneg s sr Hs Hsr) as Hf.
  rewrite <- INR_IZR_INZ. unfold topFrequency.
  assert (0 <= INR k) by apply pos_INR.
  assert (INR k <= INR (length s) - 1).
  { assert (S k <= length s)%nat as Hle by lia.
    apply le_INR in Hle. rewrite S_INR in Hle. lra. }
  split; [apply Rmult_le_pos; assumption|].
  apply Rmult_le_compat_r; assumption.
Qed.

Lemma topFrequency_below_nyquist (s : Uint8Array) (sr : R) :
  s <> [] -> 0 < sr -> 0 <= topFrequency s sr < sr / 2.
Proof.
  intros Hs Hsr. unfold topFrequency, freqPerBin. rewrite len_INR.
  pose proof (length_pos s Hs) as Hn. apply lt_0_INR in Hn.
  assert (1 <= INR (length s)).
  { pose proof (length_pos s Hs) as Hn1. apply le_INR in Hn1. simpl in Hn1. lra. }
  replace ((INR (length s) - 1) * (sr / (INR (length s) * 2)))
    with (sr / 2 - sr / (INR (length s) * 2)) by (field; lra).
  assert (0 < sr / (INR (length s) * 2)) by (apply Rdiv_lt_0_compat; lra).
  split; [|lra].
  assert (sr / (INR (length s) * 2) <= sr / 2); [|lra].
  unfold Rdiv. apply Rmult_le_compat_l; [lra|].
  apply Rinv_le_contravar; lra.
Qed.

Lemma totalMagnitude_nonneg (s : Uint8Array) :
  Forall uint8 s -> 0 <= totalMagnitude s.
Proof.
  intros Hu. apply bigsum_nonneg. intros k _. apply (val_uint8 s k Hu).
Qed.

Lemma meanFrequency_range (s : Uint8Array) (sr : R) :
  s <> [] -> Forall uint8 s -> 0 <= sr ->
  0 <= meanFrequency s sr <= topFrequency s sr.
Proof.
  intros Hs Hu Hsr. unfold meanFrequency.
  assert (Htop : 0 <= topFrequency s sr).
  { destruct (binFrequency_range s sr 0 Hs Hsr (length_pos s Hs)). lra. }
  destruct (Rlt_dec 0 (totalMagnitude s)) as [Hpos|_]; [|lra].
  assert (Hlo : 0 <= weightedFrequency s (freqPerBin s sr)).
  { apply bigsum_nonneg. intros k Hk.
    apply Rmult_le_pos; [apply (val_uint8 s k Hu)|].
    apply (binFrequency_range s sr k Hs Hsr Hk). }
  assert (Hhi : weightedFrequency s (freqPerBin s sr)
                <= topFrequency s sr * totalMagnitude s).
  { unfold weightedFrequency, totalMagnitude. rewrite <- bigsum_scal.
    apply bigsum_le. intros k Hk. rewrite Rmult_comm.
    apply Rmult_le_compat_r; [apply (val_uint8 s k Hu)|].
    apply (binFrequency_range s sr k Hs Hsr Hk). }
  split; [apply div_nonneg; assumption|].
  apply (Rmult_le_reg_r (totalMagnitude s)); [assumption|].
  unfold Rdiv. rewrite Rmult_assoc, Rinv_l by lra. lra.
Qed.

(** X4.  The centroid of a byte spectrum lies between 0 and the Nyquist
    frequency (half the sample rate), which it never reaches. *)
Theorem centroid_below_nyquist (s w : Uint8Array) (sr : R) :
  Forall uint8 s -> 0 < sr ->
  exists c, getSpectralCentroid (frame s w sr) = Fin c /\ 0 <= c < sr / 2.
Proof.
  intros Hu Hsr. rewrite getSpectralCentroid_closed.
  exists (meanFrequency s sr). split; [reflexivity|].
  destruct s as [|x s'] eqn:E.
  { unfold meanFrequency, totalMagnitude. simpl.
    destruct (Rlt_dec 0 0); lra. }
  rewrite <- E in *. assert (Hs : s <> []) by (subst; discriminate). clear E.
  pose proof (meanFrequency_range s sr Hs Hu (Rlt_le _ _ Hsr)).
  pose proof (topFrequency_below_nyquist s sr Hs Hsr). lra.
Qed.

Lemma centroid_below_nyquist_witness :
  exists c, getSpectralCentroid (frame [0; 0; 255]%Z [] 48000) = Fin c
            /\ 0 <= c < 48000 / 2.
Proof.
  apply centroid_below_nyquist; [|lra].
  repeat constructor; unfold uint8; lia.
Defined.

Lemma weightedDeviation_range (s : Uint8Array) (sr : R) :
  s <> [] -> Forall uint8 s -> 0 <= sr ->
  0 <= weightedDeviation s (freqPerBin s sr) (meanFrequency s sr)
    <= topFrequency s sr * topFrequency s sr * totalMagnitude s.
Proof.
  intros Hs Hu Hsr.
  pose proof (meanFrequency_range s sr Hs Hu Hsr) as Hm.
  unfold weightedDeviation, totalMagnitude. split.
  - apply bigsum_nonneg. intros k _. rewrite Rmult_assoc.
    apply Rmult_le_pos; [apply (val_uint8 s k Hu)|]. apply Rle_0_sqr.
  - rewrite <- bigsum_scal. apply bigsum_le. intros k Hk.
    pose proof (binFrequency_range s sr k Hs Hsr Hk) as Hb.
    pose proof (val_uint8 s k Hu) as [Hv _].
    rewrite Rmult_assoc, (Rmult_comm (topFrequency s sr * topFrequency s sr)).
    apply Rmult_le_compat_l; [assumption|]. nra.
Qed.

(** X5.  The spread of a byte spectrum is a finite number between 0 and the
    Nyquist frequency. *)
Theorem spread_below_nyquist (s w : Uint8Array) (sr : R) :
  Forall uint8 s -> 0 < sr ->
  exists d, getSpectralSpread (frame s w sr) = Fin d /\ 0 <= d < sr / 2.
Proof.
  intros Hu Hsr. rewrite getSpectralSpread_closed.
  destruct (Rlt_dec 0 (totalMagnitude s)) as [Hpos|_]; [|exists 0; split; [reflexivity|lra]].
  assert (Hs : s <> []).
  { intros ->. unfold totalMagnitude in Hpos. simpl in Hpos. lra. }
  pose proof (weightedDeviation_range s sr Hs Hu (Rlt_le _ _ Hsr)) as [Hlo Hhi].
  pose proof (topFrequency_below_nyquist s sr Hs Hsr) as [Ht0 Ht1].
  rewrite sqrt_fin by (apply div_nonneg; assumption).
  eexists. split; [reflexivity|]. split; [apply sqrt_pos|].
  apply Rle_lt_trans with (topFrequency s sr); [|assumption].
  apply sqrt_le_of_sqr; [assumption|].
  apply (Rmult_le_reg_r (totalMagnitude s)); [assumption|].
  unfold Rdiv. rewrite Rmult_assoc, Rinv_l by lra. lra.
Qed.

Lemma spread_below_nyquist_witness :
  exists d, getSpectralSpread (frame [9; 0; 255]%Z [] 48000) = Fin d
            /\ 0 <= d < 48000 / 2.
Proof.
  apply spread_below_nyquist; [|lra].
  repeat constructor; unfold uint8; lia.
Defined.

Lemma bigsum_single (n j : nat) (f : nat -> R) :
  (j < n)%nat -> (forall k, (k < n)%nat -> k <> j -> f k = 0) ->
  bigsum n f = f j.
Proof.
  induction n as [|n IH]; intros Hj Hz; [lia|]. simpl.
  destruct (Nat.eq_dec j n) as [->|Hne].
  - rewrite bigsum_zero; [lra|]. intros k Hk. apply Hz; lia.
  - rewrite IH by (try lia; intros; apply Hz; lia).
    rewrite (Hz n) by lia. lra.
Qed.

Lemma oneBin_length (a b : nat) (v : Z) : length (oneBin a b v) = S (a + b).
Proof.
  unfold oneBin. rewrite length_app, repeat_length. simpl.
  rewrite repeat_length. lia.
Qed.

Lemma oneBin_val (a b : nat) (v : Z) (k : nat) :
  val (oneBin a b v) k = if Nat.eq_dec k a then IZR v else 0.
Proof.
  unfold val, oneBin.
  destruct (Nat.lt_ge_cases k a) as [Hlt|Hge].
  - rewrite app_nth1 by (rewrite repeat_length; assumption).
    rewrite nth_repeat. destruct (Nat.eq_dec k a); [lia|reflexivity].
  - rewrite app_nth2 by (rewrite repeat_length; assumption).
    rewrite repeat_length.
    destruct (Nat.eq_dec k a) as [->|Hne].
    + rewrite Nat.sub_diag. reflexivity.
    + destruct (k - a)%nat as [|m] eqn:Em; [lia|]. simpl.
      destruct (Nat.lt_ge_cases m b).
      * rewrite nth_repeat_lt by assumption. reflexivity.
      * rewrite nth_overflow by (rewrite repeat_length; assumption). reflexivity.
Qed.



(* ================================================================== *)
(** ** Further properties of the tonality *)

Lemma gt_IZR (a b : Z) : (Fin (IZR a) >? Fin (IZR b))%js = (b <? a)%Z.
Proof.
  destruct (Z.ltb_spec b a) as [Hlt|Hge].
  - apply gt_fin_true. apply IZR_lt. assumption.
  - apply gt_fin_false. apply IZR_le. assumption.
Qed.

Lemma peak_test (s : Uint8Array) (m : nat) :
  ((Fin (val s (S m)) >? Fin (val s m))%js
   && (Fin (val s (S m)) >? Fin (val s (S (S m))))%js
   && (Fin (val s (S m)) >? 10)%js)%bool
  = isPeak s (S m).
Proof.
  unfold val, isPeak. change 10 with (IZR 10). rewrite !gt_IZR. reflexivity.
Qed.

Lemma getTonality_closed (s w : Uint8Array) (sr : R) :
  getTonality (frame s w sr)
  = if Rlt_dec 0 (interiorEnergy s)
    then Fin (Rmin 1 (peakEnergy s / interiorEnergy s * 3))
    else Fin 0.
Proof.
  destruct s as [|x s'] eqn:E.
  { unfold interiorEnergy. simpl. destruct (Rlt_dec 0 0); [lra|reflexivity]. }
  rewrite <- E in *. assert (Hs : s <> []) by (subst; discriminate). clear E.
  unfold getTonality. simpl getFrequencyData.
  rewrite usable_nonempty by assumption.
  rewrite for_lt_rounds by lia. rewrite trip_unit.
  replace (Z.to_nat (len s - 1 - 1)) with (length s - 2)%nat by (unfold len; lia).
  match goal with
  | |- context [rounds _ ?f ?a] =>
      assert (Hgen : forall m, (m <= length s - 2)%nat ->
                rounds m f a
                = (Fin (bigsum m (fun k => if isPeak s (S k) then val s (S k) else 0)),
                   Fin (bigsum m (fun k => val s (S k)))))
  end.
  { induction m as [|m IH]; intros Hm; [reflexivity|].
    change (rounds (S m) ?f ?a) with (f m (rounds m f a)).
    rewrite IH by lia. cbv beta iota zeta.
    replace (1 + Z.of_nat m * 1)%Z with (Z.of_nat (S m)) by lia.
    replace (Z.of_nat (S m) - 1)%Z with (Z.of_nat m) by lia.
    replace (Z.of_nat (S m) + 1)%Z with (Z.of_nat (S (S m))) by lia.
    rewrite !get_val by lia. rewrite peak_test. cbn [bigsum].
    destruct (isPeak s (S m)); fin_arith; [reflexivity|].
    f_equal. f_equal. lra. }
  rewrite Hgen by lia.
  fold (peakEnergy s). fold (interiorEnergy s).
  destruct (Rlt_dec 0 (interiorEnergy s)) as [Hpos|Hn].
  - rewrite gt_fin_true by assumption. rewrite div_fin by lra.
    fin_arith. apply min_one_fin.
  - rewrite gt_fin_false by lra. reflexivity.
Qed.

Lemma peakEnergy_range (s : Uint8Array) :
  Forall uint8 s -> 0 <= peakEnergy s <= interiorEnergy s.
Proof.
  intros Hu. unfold peakEnergy, interiorEnergy. split.
  - apply bigsum_nonneg. intros k _.
    destruct (isPeak s (S k)); [apply (val_uint8 s (S k) Hu)|lra].
  - apply bigsum_le. intros k _. pose proof (val_uint8 s (S k) Hu).
    destruct (isPeak s (S k)); lra.
Qed.

(** X7.  The tonality of a byte spectrum is a number of [0, 1]. *)
Theorem tonality_unit_interval (s w : Uint8Array) (sr : R) :
  Forall uint8 s -> JS.within 0 1 (getTonality (frame s w sr)).
Proof.
  intros Hu. rewrite getTonality_closed.
  destruct (Rlt_dec 0 (interiorEnergy s)) as [Hpos|_];
    [|exists 0; split; [reflexivity|lra]].
  eexists. split; [reflexivity|].
  pose proof (peakEnergy_range s Hu) as [Hp0 Hp1].
  assert (0 <= peakEnergy s / interiorEnergy s) by (apply div_nonneg; assumption).
  split; [apply Rmin_glb; lra|apply Rmin_l].
Qed.

Lemma tonality_unit_interval_witness :
  JS.within 0 1 (getTonality (frame [3; 200; 40; 90; 12]%Z [] 44100)).
Proof.
  apply tonality_unit_interval.
  repeat constructor; unfold uint8; lia.
Defined.

(** X8.  A flat spectrum, every bin at the same value, has no local peak:
    its tonality is 0. *)
Theorem tonality_flat_spectrum (s w : Uint8Array) (sr : R) (v : Z) :
  Forall (eq v) s -> getTonality (frame s w sr) = Fin 0.
Proof.
  intros Hall. rewrite getTonality_closed.
  destruct (Rlt_dec 0 (interiorEnergy s)) as [Hpos|_]; [|reflexivity].
  assert (Hp : peakEnergy s = 0).
  { unfold peakEnergy. apply bigsum_zero. intros k Hk.
    assert (Hv : forall j, (j < length s)%nat -> nth j s 0%Z = v).
    { intros j Hj. rewrite Forall_forall in Hall. symmetry.
      apply Hall. apply nth_In. assumption. }
    unfold isPeak. simpl Nat.pred.
    rewrite (Hv k), (Hv (S k)) by lia.
    rewrite Z.ltb_irrefl. reflexivity. }
  rewrite Hp. f_equal. unfold Rdiv. rewrite !Rmult_0_l.
  apply Rmin_right. lra.
Qed.

Lemma tonality_flat_spectrum_witness :
  getTonality (frame (repeat 90%Z 1024) [] 44100) = Fin 0.
Proof.
  apply (tonality_flat_spectrum _ [] 44100 90). apply Forall_repeat. reflexivity.
Defined.

Lemma oneBin_nth (a b : nat) (v : Z) (k : nat) :
  nth k (oneBin a b v) 0%Z = if Nat.eq_dec k a then v else 0%Z.
Proof.
  apply eq_IZR. pose proof (oneBin_val a b v k) as H. unfold val in H.
  rewrite H. destruct (Nat.eq_dec k a); reflexivity.
Qed.

(** X9.  A lone bin above the threshold 10 gives tonality 1 when it is an
    interior bin, and tonality 0 when it is the first or the last bin: the
    two edge bins are left out of both energies. *)
Theorem tonality_lone_bin (a b : nat) (v : Z) (w : Uint8Array) (sr : R) :
  (10 < v)%Z ->
  getTonality (frame (oneBin a b v) w sr)
  = if (Nat.eqb a 0 || Nat.eqb b 0)%bool then Fin 0 else Fin 1.
Proof.
  intros Hv. rewrite getTonality_closed.
  set (s := oneBin a b v).
  assert (Hlen : length s = S (a + b)) by apply oneBin_length.
  assert (Hv' : 0 < IZR v) by (apply IZR_lt; lia).
  destruct (Nat.eqb_spec a 0) as [Ha|Ha]; [|destruct (Nat.eqb_spec b 0) as [Hb|Hb]];
    cbn [orb].
  - assert (Hi : interiorEnergy s = 0).
    { unfold interiorEnergy. apply bigsum_zero. intros k _.
      unfold s. rewrite oneBin_val. destruct (Nat.eq_dec (S k) a); [lia|reflexivity]. }
    rewrite Hi. destruct (Rlt_dec 0 0); [lra|reflexivity].
  - assert (Hi : interiorEnergy s = 0).
    { unfold interiorEnergy. apply bigsum_zero. intros k Hk.
      unfold s. rewrite oneBin_val. destruct (Nat.eq_dec (S k) a); [lia|reflexivity]. }
    rewrite Hi. destruct (Rlt_dec 0 0); [lra|reflexivity].
  - assert (Hj : (a - 1 < length s - 2)%nat) by lia.
    assert (Hi : interiorEnergy s = IZR v).
    { unfold interiorEnergy. rewrite (bigsum_single _ (a - 1)).
      - unfold s. rewrite oneBin_val.
        destruct (Nat.eq_dec (S (a - 1)) a); [reflexivity|lia].
      - assumption.
      - intros k _ Hk. unfold s. rewrite oneBin_val.
        destruct (Nat.eq_dec (S k) a); [lia|reflexivity]. }
    assert (Hp : peakEnergy s = IZR v).
    { unfold peakEnergy. rewrite (bigsum_single _ (a - 1)).
      - replace (S (a - 1)) with a by lia.
        unfold isPeak, s. rewrite !oneBin_nth. rewrite oneBin_val.
        destruct (Nat.eq_dec a a); [|contradiction].
        destruct (Nat.eq_dec (Nat.pred a) a); [lia|].
        destruct (Nat.eq_dec (S a) a); [lia|].
        destruct (Z.ltb_spec 0 v); [|lia].
        destruct (Z.ltb_spec 10 v); [|lia]. reflexivity.
      - assumption.
      - intros k _ Hk. unfold s. rewrite oneBin_val.
        destruct (Nat.eq_dec (S k) a); [lia|].
        destruct (isPeak _ _); reflexivity. }
    rewrite Hi, Hp. destruct (Rlt_dec 0 (IZR v)); [|contradiction].
    f_equal. apply Rmin_left.
    replace (IZR v / IZR v) with 1 by (field; lra). lra.
Qed.

Lemma tonality_lone_bin_witness :
  getTonality (frame (oneBin 100 923 255) [] 44100) = Fin 1
  /\ getTonality (frame (oneBin 0 1023 255) [] 44100) = Fin 0.
Proof.
  split.
  - apply (tonality_lone_bin 100 923 255 [] 44100). lia.
  - apply (tonality_lone_bin 0 1023 255 [] 44100). lia.
Defined.

(* ================================================================== *)
(** ** Further properties of the pitch detector *)




(** X11.  A waveform shorter than twice the shortest searched period,
    [2 * floor(sampleRate / 1000)] samples, has pitch 0. *)
Theorem pitch_short_buffer (s w : Uint8Array) (sr : R) :
  (Z.of_nat (length w) < 2 * Zfloor (sr / 1000))%Z ->
  getPitch (frame s w sr) = Fin 0.
Proof. intros H. apply getPitch_short_buffer. exact H. Qed.

Lemma pitch_short_buffer_witness :
  getPitch (frame [] (repeat 200%Z 64) 44100) = Fin 0.
Proof.
  apply pitch_short_buffer.
  fold (minPeriod 44100). rewrite minPeriod_44100.
  rewrite repeat_length. lia.
Defined.

(* ================================================================== *)
(** ** Further properties of the amplitude modulation *)

Lemma rounds_append {A : Type} (n : nat) (g : nat -> A) :
  rounds n (fun k l => l ++ [g k]) [] = map g (seq 0 n).
Proof.
  induction n as [|n IH]; [reflexivity|].
  rewrite seq_S, map_app. simpl. rewrite IH. reflexivity.
Qed.

Lemma fold_left_seq {A B : Type} (f : A -> B -> A) (h : nat -> B) (n : nat) (a : A) :
  fold_left f (map h (seq 0 n)) a = rounds n (fun k acc => f acc (h k)) a.
Proof.
  induction n as [|n IH]; [reflexivity|].
  rewrite seq_S, map_app, fold_left_app. simpl. rewrite IH. reflexivity.
Qed.

Lemma envelopeCount_windows (w : Uint8Array) (k : nat) :
  (k < envelopeCount w)%nat -> (64 * k + 64 < length w)%nat.
Proof.
  unfold envelopeCount, trip, windowSize, len. intros Hk.
  assert (Hq : (Z.of_nat k < (Z.of_nat (length w) - 64 - 0 + 64 - 1) / 64)%Z) by lia.
  assert (Hd : (64 * ((Z.of_nat (length w) - 64 - 0 + 64 - 1) / 64)
                <= Z.of_nat (length w) - 64 - 0 + 64 - 1)%Z)
    by (apply Z.mul_div_le; lia).
  lia.
Qed.

(** The envelope loop as a list of finite numbers. *)
Lemma envelopes_closed (w : Uint8Array) :
  for_lt 0 (len w - windowSize) windowSize
    (fun i envelopes =>
       envelopes
       ++ [for_lt 0 windowSize 1
             (fun j max => JS.max max (JS.abs (get w (i + j) - 128)%js))
             (Fin 0)])
    []
  = map (fun k => Fin (envelope w k)) (seq 0 (envelopeCount w)).
Proof.
  rewrite for_lt_rounds by (unfold windowSize; lia).
  fold (envelopeCount w). rewrite <- rounds_append.
  apply rounds_ext. intros k l Hk. f_equal. f_equal.
  pose proof (envelopeCount_windows w k Hk) as Hin.
  rewrite for_lt_rounds by lia. rewrite trip_unit.
  change (Z.to_nat (windowSize - 0)) with 64%nat.
  unfold envelope.
  assert (Hgen : forall m, (m <= 64)%nat ->
    rounds m
      (fun j => (fun j max =>
         JS.max max (JS.abs (get w (0 + Z.of_nat k * windowSize + j) - 128)%js))
         (0 + Z.of_nat j * 1)%Z)
      (Fin 0)
    = Fin (bigmax m (fun j => Rabs (val w (64 * k + j) - 128)))).
  { induction m as [|m IH]; intros Hm; [reflexivity|].
    change (rounds (S m) ?f ?a) with (f m (rounds m f a)).
    rewrite IH by lia. cbv beta.
    replace (0 + Z.of_nat k * windowSize + (0 + Z.of_nat m * 1))%Z
      with (Z.of_nat (64 * k + m)) by (unfold windowSize; lia).
    rewrite get_val by lia. fin_arith. rewrite max_fin. reflexivity. }
  apply Hgen. lia.
Qed.

Lemma getAmplitudeModulation_closed (s w : Uint8Array) (sr : R) :
  (2 <= envelopeCount w)%nat ->
  getAmplitudeModulation (frame s w sr)
  = Fin (Rmin 1 (sqrt (varianceOf (envelopeCount w) (envelope w)) / 64)).
Proof.
  intros Hn.
  assert (Hw : w <> []).
  { intros ->. vm_compute in Hn. lia. }
  unfold getAmplitudeModulation. simpl getTimeDomainData.
  rewrite usable_nonempty by assumption.
  rewrite envelopes_closed. cbv zeta.
  set (n := envelopeCount w) in *.
  assert (Hlen : len (map (fun k => Fin (envelope w k)) (seq 0 n)) = Z.of_nat n).
  { unfold len. rewrite length_map, length_seq. reflexivity. }
  rewrite Hlen.
  destruct (Z.ltb_spec (Z.of_nat n) 2) as [Hlt|_]; [lia|].
  assert (HnR : 0 < INR n) by (apply lt_0_INR; lia).
  rewrite <- INR_IZR_INZ.
  rewrite !fold_left_seq.
  rewrite (rounds_sum n (fun k => Fin (envelope w k)) (envelope w) 0)
    by reflexivity.
  rewrite Rplus_0_l. rewrite div_fin by lra. fold (meanOf n (envelope w)).
  rewrite (rounds_sum n _
    (fun k => (envelope w k - meanOf n (envelope w))
              * (envelope w k - meanOf n (envelope w))) 0)
    by reflexivity.
  rewrite Rplus_0_l. rewrite div_fin by lra. fold (varianceOf n (envelope w)).
  rewrite sqrt_fin.
  - rewrite div_fin by lra. apply min_one_fin.
  - unfold varianceOf. apply div_nonneg; [|assumption].
    apply bigsum_nonneg. intros k _. apply Rle_0_sqr.
Qed.


Lemma bigmax_const (n : nat) (c : R) :
  (0 < n)%nat -> 0 <= c -> bigmax n (fun _ => c) = c.
Proof.
  intros Hn Hc. induction n as [|n IH]; [lia|]. simpl.
  destruct n as [|n']; [simpl; apply Rmax_right; assumption|].
  rewrite IH by lia. apply Rmax_left. lra.
Qed.

Lemma bigmax_ext (n : nat) (f g : nat -> R) :
  (forall k, (k < n)%nat -> f k = g k) -> bigmax n f = bigmax n g.
Proof.
  induction n as [|n IH]; intros H; simpl; [reflexivity|].
  rewrite IH by (intros; apply H; lia). rewrite H by lia. reflexivity.
Qed.

(** X13.  A constant waveform, whatever its level and length, has amplitude
    modulation 0. *)
Theorem amplitude_modulation_constant (s w : Uint8Array) (sr : R) (c : Z) :
  Forall (eq c) w -> getAmplitudeModulation (frame s w sr) = Fin 0.
Proof.
  intros Hall.
  destruct (Nat.lt_ge_cases (envelopeCount w) 2) as [Hfew|Hn].
  { apply getAmplitudeModulation_few. assumption. }
  rewrite getAmplitudeModulation_closed by assumption.
  set (n := envelopeCount w) in *.
  assert (HnR : 0 < INR n) by (apply lt_0_INR; lia).
  assert (He : forall k, (k < n)%nat -> envelope w k = Rabs (IZR c - 128)).
  { intros k Hk. pose proof (envelopeCount_windows w k Hk) as Hin.
    unfold envelope.
    rewrite (bigmax_ext 64 _ (fun _ => Rabs (IZR c - 128))).
    - apply bigmax_const; [lia|apply Rabs_pos].
    - intros j Hj. rewrite (val_all w c) by (assumption || lia). reflexivity. }
  assert (Hm : meanOf n (envelope w) = Rabs (IZR c - 128)).
  { unfold meanOf. rewrite (bigsum_ext n _ (fun _ => Rabs (IZR c - 128))) by exact He.
    rewrite bigsum_const. field. lra. }
  assert (Hv : varianceOf n (envelope w) = 0).
  { unfold varianceOf. rewrite bigsum_zero.
    - unfold Rdiv. apply Rmult_0_l.
    - intros k Hk. rewrite Hm, He by assumption. ring. }
  rewrite Hv, sqrt_0. f_equal. unfold Rdiv. rewrite Rmult_0_l.
  apply Rmin_right. lra.
Qed.

Lemma amplitude_modulation_constant_witness :
  getAmplitudeModulation (frame [] (repeat 255%Z 2048) 44100) = Fin 0.
Proof.
  apply (amplitude_modulation_constant [] _ 44100 255).
  apply Forall_repeat. reflexivity.
Defined.

(* ================================================================== *)
(** ** Further properties of the spectral flux *)

Lemma zsum_range (n : nat) (f : nat -> Z) (b : Z) :
  (forall k, (k < n)%nat -> 0 <= f k <= b)%Z ->
  (0 <= zsum n f <= Z.of_nat n * b)%Z.
Proof.
  induction n as [|n IH]; intros H; [simpl; lia|].
  cbn [zsum]. specialize (IH ltac:(intros; apply H; lia)).
  specialize (H n ltac:(lia)). lia.
Qed.

Lemma positiveDifference_range (cur prev : Uint8Array) (k : nat) :
  Forall uint8 cur -> Forall uint8 prev ->
  (0 <= positiveDifference cur prev k <= 255)%Z.
Proof.
  intros Hc Hp. unfold positiveDifference.
  destruct (nth_error prev k) as [p|] eqn:E; [|lia].
  apply nth_error_In in E. rewrite Forall_forall in Hp.
  pose proof (Hp p E) as [Hp0 Hp1].
  assert (0 <= nth k cur 0 < 256)%Z.
  { destruct (Nat.lt_ge_cases k (length cur)) as [Hk|Hk].
    - rewrite Forall_forall in Hc. apply Hc. apply nth_In. assumption.
    - rewrite nth_overflow by assumption. lia. }
  lia.
Qed.

Lemma flux_value_range (cur prev : Uint8Array) :
  cur <> [] -> Forall uint8 cur -> Forall uint8 prev ->
  0 <= IZR (zsum (length cur) (positiveDifference cur prev)) / IZR (len cur) <= 255.
Proof.
  intros Hne Hc Hp. pose proof (len_IZR_pos cur Hne) as Hn.
  pose proof (zsum_range (length cur) (positiveDifference cur prev) 255
                (fun k _ => positiveDifference_range cur prev k Hc Hp)) as [H0 H1].
  apply IZR_le in H0. apply IZR_le in H1. rewrite mult_IZR in H1.
  fold (len cur) in H1.
  split; [apply div_nonneg; assumption|].
  apply (Rmult_le_reg_r (IZR (len cur))); [assumption|].
  unfold Rdiv. rewrite Rmult_assoc, Rinv_l by lra. lra.
Qed.

(** X14.  With byte spectra the flux lies in [0, 255], and
    [getFrequencyModulation], called on its own, returns
    [min(1, flux / 10)], a number of [0, 1], and stores the current
    spectrum like [getSpectralFlux]. *)
Theorem flux_and_modulation_range
        (s w : Uint8Array) (sr : R) (this : AudioAnalyzer) :
  s <> [] ->
  Forall uint8 s ->
  (forall prev, prevSpectrum this = Some prev -> Forall uint8 prev) ->
  exists f,
    getSpectralFlux (frame s w sr) this = (Fin f, {| prevSpectrum := Some s |})
    /\ 0 <= f <= 255
    /\ getFrequencyModulation (frame s w sr) this
       = (Fin (Rmin 1 (f / 10)), {| prevSpectrum := Some s |})
    /\ 0 <= Rmin 1 (f / 10) <= 1.
Proof.
  intros Hne Hu Hprev.
  assert (Hflux : exists f,
             getSpectralFlux (frame s w sr) this
             = (Fin f, {| prevSpectrum := Some s |}) /\ 0 <= f <= 255).
  { destruct (prevSpectrum this) as [prev|] eqn:Ep.
    - rewrite (getSpectralFlux_later s w prev) by assumption.
      eexists. split; [reflexivity|].
      apply flux_value_range; try assumption. apply Hprev. reflexivity.
    - rewrite getSpectralFlux_first by assumption.
      exists 0. split; [reflexivity|lra]. }
  destruct Hflux as [f [Hf Hr]]. exists f.
  split; [assumption|]. split; [assumption|]. split.
  - unfold getFrequencyModulation. rewrite Hf.
    rewrite div_fin by lra. rewrite min_one_fin. reflexivity.
  - split; [apply Rmin_glb; lra|apply Rmin_l].
Qed.

Lemma flux_and_modulation_range_witness :
  exists f,
    getSpectralFlux (frame [10; 50; 30]%Z [] 44100)
                    {| prevSpectrum := Some [200; 7; 30]%Z |}
    = (Fin f, {| prevSpectrum := Some [10; 50; 30]%Z |})
    /\ 0 <= f <= 255
    /\ getFrequencyModulation (frame [10; 50; 30]%Z [] 44100)
                              {| prevSpectrum := Some [200; 7; 30]%Z |}
       = (Fin (Rmin 1 (f / 10)), {| prevSpectrum := Some [10; 50; 30]%Z |})
    /\ 0 <= Rmin 1 (f / 10) <= 1.
Proof.
  apply flux_and_modulation_range.
  - discriminate.
  - repeat constructor; unfold uint8; lia.
  - intros prev H. injection H as <-. repeat constructor; unfold uint8; lia.
Defined.

(** X15.  The flux counts rises only: when no bin is above its stored
    value, the flux is 0, however far the spectrum fell. *)
Theorem flux_ignores_decay
        (s prev w : Uint8Array) (sr : R) (this : AudioAnalyzer) :
  s <> [] ->
  prevSpectrum this = Some prev ->
  Forall2 Z.le s prev ->
  fst (getSpectralFlux (frame s w sr) this) = Fin 0.
Proof.
  intros Hne Hp Hle.
  rewrite (getSpectralFlux_later s w prev) by assumption. cbn [fst].
  rewrite zsum_zero.
  - f_equal. unfold Rdiv. apply Rmult_0_l.
  - intros k Hk. unfold positiveDifference.
    destruct (nth_error prev k) as [p|] eqn:E; [|reflexivity].
    assert (Hkp : (nth k s 0 <= p)%Z).
    { clear Hp Hne. revert k Hk E.
      induction Hle as [|x y l l' Hxy _ IH]; intros k Hk E.
      - destruct k; discriminate.
      - destruct k as [|k]; simpl in *.
        + injection E as <-. assumption.
        + apply IH; [lia|assumption]. }
    lia.
Qed.

Lemma flux_ignores_decay_witness :
  fst (getSpectralFlux (frame [0; 7; 30]%Z [] 44100)
                       {| prevSpectrum := Some [255; 7; 200]%Z |}) = Fin 0.
Proof.
  apply (flux_ignores_decay _ [255; 7; 200]%Z).
  - discriminate.
  - reflexivity.
  - repeat constructor; lia.
Defined.

(* ================================================================== *)
(** ** Further properties of the feature record *)

(** X16.  After [getAllFeatures] on a frame with a spectrum the analyzer
    stores that spectrum, whatever it stored before; a second call on the
    same frame therefore reports a flux of 0 and leaves the analyzer as it
    is. *)
Theorem features_store_spectrum
        (s w : Uint8Array) (sr : R) (this : AudioAnalyzer) :
  s <> [] ->
  let this' := snd (getAllFeatures (frame s w sr) this) in
  this' = {| prevSpectrum := Some s |}
  /\ spectralFlux (fst (getAllFeatures (frame s w sr) this')) = Fin 0
  /\ snd (getAllFeatures (frame s w sr) this') = this'.
Proof.
  intros Hne.
  assert (Hst : forall a, snd (getAllFeatures (frame s w sr) a)
                          = {| prevSpectrum := Some s |}).
  { intros a. unfold getAllFeatures.
    pose proof (getSpectralFlux_stores s w sr a Hne) as H1.
    destruct (getSpectralFlux (frame s w sr) a) as [flux a1].
    cbn [snd] in H1. subst a1.
    unfold getFrequencyModulation.
    rewrite getSpectralFlux_again by assumption. reflexivity. }
  cbv zeta. rewrite !Hst. split; [reflexivity|]. split; [|reflexivity].
  rewrite getAllFeatures_spectralFlux.
  rewrite getSpectralFlux_again by assumption. reflexivity.
Qed.

Lemma features_store_spectrum_witness :
  let this' := snd (getAllFeatures (frame [1; 2; 3]%Z [128]%Z 44100) newAnalyzer) in
  this' = {| prevSpectrum := Some [1; 2; 3]%Z |}
  /\ spectralFlux (fst (getAllFeatures (frame [1; 2; 3]%Z [128]%Z 44100) this')) = Fin 0
  /\ snd (getAllFeatures (frame [1; 2; 3]%Z [128]%Z 44100) this') = this'.
Proof.
  apply (features_store_spectrum [1; 2; 3]%Z [128]%Z 44100 newAnalyzer).
  discriminate.
Defined.

(** X17.  Before the engine has buffers (both [null]), and likewise on
    empty buffers, [getAllFeatures] returns the record of zeros with 13
    zero coefficients and leaves the analyzer untouched. *)
Theorem features_without_buffers (sr : R) (this : AudioAnalyzer) :
  let zeros :=
    {| rms := Fin 0; peak := Fin 0; spectralCentroid := Fin 0;
       spectralSpread := Fin 0; spectralFlux := Fin 0;
       spectralEntropy := Fin 0; tonality := Fin 0; pitch := Fin 0;
       amplitudeModulation := Fin 0; frequencyModulation := Fin 0;
       mfccs := repeat (Fin 0) 13 |} in
  getAllFeatures {| getFrequencyData := None; getTimeDomainData := None;
                    getSampleRate := sr |} this
  = (zeros, this)
  /\ getAllFeatures (frame [] [] sr) this = (zeros, this).
Proof.
  cbv zeta. split.
  - unfold getAllFeatures, getFrequencyModulation, getSpectralFlux, getRMS,
      getPeak, getSpectralCentroid, getSpectralSpread, getSpectralEntropy,
      getTonality, getPitch, getAmplitudeModulation, getMFCCs.
    cbn [getFrequencyData getTimeDomainData usable].
    rewrite div_fin by lra. rewrite min_one_fin.
    replace (Rmin 1 (0 / 10)) with 0; [reflexivity|].
    unfold Rdiv. rewrite Rmult_0_l. symmetry. apply Rmin_right. lra.
  - unfold getAllFeatures, getFrequencyModulation, getSpectralFlux, getRMS,
      getPeak, getSpectralCentroid, getSpectralSpread, getSpectralEntropy,
      getTonality, getPitch, getAmplitudeModulation, getMFCCs, frame.
    cbn [getFrequencyData getTimeDomainData usable].
    rewrite div_fin by lra. rewrite min_one_fin.
    replace (Rmin 1 (0 / 10)) with 0; [reflexivity|].
    unfold Rdiv. rewrite Rmult_0_l. symmetry. apply Rmin_right. lra.
Qed.

(* ================================================================== *)
(** ** The cepstral coefficients *)

Lemma ln10_pos : 0 < ln 10.
Proof. rewrite <- ln_1. apply ln_increasing; lra. Qed.

Lemma freqToMel_fin (f : R) : 0 <= f -> freqToMel (Fin f) = Fin (melOf f).
Proof.
  intros Hf. unfold freqToMel, melOf. rewrite div_fin by lra. fin_arith.
  unfold JS.log10, JS.log_base.
  destruct (Rlt_dec 0 (1 + f / 700)) as [_|Hn]; [reflexivity|].
  exfalso. apply Hn. lra.
Qed.

Lemma melToFreq_fin (m : R) : melToFreq (Fin m) = Fin (freqOf m).
Proof. unfold melToFreq, freqOf. rewrite div_fin by lra. reflexivity. Qed.

Lemma melOf_nonneg (f : R) : 0 <= f -> 0 <= melOf f.
Proof.
  intros Hf. unfold melOf. pose proof ln10_pos.
  assert (0 <= ln (1 + f / 700)).
  { rewrite <- ln_1. apply ln_le_mono; lra. }
  assert (0 <= ln (1 + f / 700) / ln 10) by (apply div_nonneg; assumption).
  lra.
Qed.

Lemma melOf_zero : melOf 0 = 0.
Proof.
  unfold melOf. replace (1 + 0 / 700) with 1 by lra. rewrite ln_1.
  unfold Rdiv. ring.
Qed.

Lemma freqOf_nonneg (m : R) : 0 <= m -> 0 <= freqOf m.
Proof.
  intros Hm. unfold freqOf, Rpower. pose proof ln10_pos.
  assert (0 <= m / 2595 * ln 10).
  { apply Rmult_le_pos; [apply div_nonneg|]; lra. }
  pose proof (exp_ineq1_le (m / 2595 * ln 10)). lra.
Qed.

Lemma Zceil_IZR (z : Z) : Zceil (IZR z) = z.
Proof. unfold Zceil. rewrite ZfloorNZ. lia. Qed.

Lemma nonnegative_sum (n : nat) (term : nat -> number) (a : number) :
  nonnegative a ->
  (forall k, (k < n)%nat -> nonnegative (term k)) ->
  nonnegative (rounds n (fun k acc => (acc + term k)%js) a).
Proof.
  intros Ha Hterm. apply rounds_inv; [assumption|].
  intros k acc Hk [r [-> Hr]]. destruct (Hterm k Hk) as [t [-> Ht]].
  exists (r + t). split; [reflexivity|lra].
Qed.

(** One triangular filter: between its edge bins no weight divides by
    zero, and the weighted sum of byte magnitudes is finite and not
    negative. *)
Lemma filter_sum_nonnegative (s : Uint8Array) (lo ce hi : Z) :
  Forall uint8 s -> (0 <= lo)%Z ->
  nonnegative
    (for_lt lo (Z.min hi (len s)) 1
       (fun j sum =>
          (sum
           + get s j
             * JS.max 0
                 (if (IZR j <? Fin (IZR ce))%js
                  then ((IZR j - Fin (IZR lo)) / (Fin (IZR ce) - Fin (IZR lo)))%js
                  else ((Fin (IZR hi) - IZR j) / (Fin (IZR hi) - Fin (IZR ce)))%js))%js)
       (Fin 0)).
Proof.
  intros Hu Hlo. rewrite for_lt_rounds by lia. rewrite trip_unit.
  apply nonnegative_sum; [exists 0; split; [reflexivity|lra]|].
  intros k Hk.
  set (j := (lo + Z.of_nat k * 1)%Z).
  assert (Hj : (lo <= j < Z.min hi (len s))%Z) by (unfold j; lia).
  assert (Hget : get s j = Fin (val s (Z.to_nat j))).
  { rewrite <- (get_val s (Z.to_nat j)) by (unfold len in Hj; lia).
    f_equal. lia. }
  rewrite Hget. pose proof (val_uint8 s (Z.to_nat j) Hu) as [Hv _].
  unfold JS.lt. rewrite gt_IZR. fin_arith.
  assert (Hweight : forall a b : R, b <> 0 ->
            nonnegative (Fin (val s (Z.to_nat j)) * JS.max 0 (Fin a / Fin b))%js).
  { intros a b Hb. rewrite div_fin by assumption. rewrite max_fin. fin_arith.
    eexists. split; [reflexivity|].
    apply Rmult_le_pos; [assumption|apply Rmax_l]. }
  destruct (Z.ltb_spec j ce) as [Hlt|Hge]; apply Hweight.
  - assert (IZR lo < IZR ce) by (apply IZR_lt; lia). lra.
  - assert (IZR ce < IZR hi) by (apply IZR_lt; lia). lra.
Qed.

Lemma applyMelFilterbank_nonnegative (s : Uint8Array) (sr : R) :
  s <> [] -> Forall uint8 s -> 0 < sr ->
  Forall nonnegative (_applyMelFilterbank s (Fin sr) (len s)).
Proof.
  intros Hs Hu Hsr. unfold _applyMelFilterbank. cbv zeta.
  rewrite for_lt_rounds by lia.
  apply (rounds_inv (Forall nonnegative)); [constructor|].
  intros k l Hk Hl. cbv beta.
  apply Forall_app. split; [assumption|]. constructor; [|constructor].
  match goal with
  | |- nonnegative (match binLoopBounds ?LB ?HB _ with _ => _ end) =>
      set (lowBin := LB); set (highBin := HB)
  end.
  match goal with
  | |- context [(_ <? ?CB)%js] => set (centerBin := CB)
  end.
  pose proof (melOf_nonneg (sr / 2)) as HM.
  assert (Hst : 0 <= (melOf (sr / 2) + - 0) / (IZR numMelFilters + 1)).
  { apply div_nonneg; [lra|unfold numMelFilters; lra]. }
  assert (Hk0 : 0 <= IZR (0 + Z.of_nat k * 1)) by (apply IZR_le; lia).
  assert (Hlow : exists z, lowBin = Fin (IZR z) /\ (0 <= z)%Z).
  { unfold lowBin.
    rewrite (div_fin sr 2) by lra.
    rewrite (freqToMel_fin 0) by lra. rewrite (freqToMel_fin (sr / 2)) by lra.
    rewrite melOf_zero.
    repeat (fin_arith;
            first [rewrite melToFreq_fin
                  |rewrite div_fin by (unfold numMelFilters; lra)]).
    cbn [JS.floor]. eexists. split; [reflexivity|].
    apply Zfloor_lub. apply Rmult_le_pos; [|apply IZR_le; unfold len; lia].
    apply div_nonneg; [|lra]. apply freqOf_nonneg.
    set (st := (melOf (sr / 2) + - 0) / (IZR numMelFilters + 1)) in *.
    nra. }
  assert (Hcenter : exists z, centerBin = Fin (IZR z)).
  { unfold centerBin.
    rewrite (div_fin sr 2) by lra.
    rewrite (freqToMel_fin 0) by lra. rewrite (freqToMel_fin (sr / 2)) by lra.
    rewrite melOf_zero.
    repeat (fin_arith;
            first [rewrite melToFreq_fin
                  |rewrite div_fin by (unfold numMelFilters; lra)]).
    cbn [JS.floor]. eexists. reflexivity. }
  assert (Hhigh : exists z, highBin = Fin (IZR z)).
  { unfold highBin.
    rewrite (div_fin sr 2) by lra.
    rewrite (freqToMel_fin 0) by lra. rewrite (freqToMel_fin (sr / 2)) by lra.
    rewrite melOf_zero.
    repeat (fin_arith;
            first [rewrite melToFreq_fin
                  |rewrite div_fin by (unfold numMelFilters; lra)]).
    cbn [JS.floor]. eexists. reflexivity. }
  destruct Hlow as [lo [Hlow Hlo]], Hcenter as [ce Hce], Hhigh as [hi Hhi].
  rewrite Hlow, Hce, Hhi. cbn [binLoopBounds]. rewrite ZfloorZ, Zceil_IZR.
  apply filter_sum_nonnegative; assumption.
Qed.

Lemma finite_sum (n : nat) (term : nat -> number) (a : number) :
  JS.finite a ->
  (forall k, (k < n)%nat -> JS.finite (term k)) ->
  JS.finite (rounds n (fun k acc => (acc + term k)%js) a).
Proof.
  intros Ha Hterm. apply rounds_inv; [assumption|].
  intros k acc Hk [r ->]. destruct (Hterm k Hk) as [t ->].
  exists (r + t). reflexivity.
Qed.

Lemma getn_finite (a : list number) (k : nat) :
  Forall JS.finite a -> (k < length a)%nat -> JS.finite (getn a (Z.of_nat k)).
Proof.
  intros Hall Hk. unfold getn.
  destruct (Z.ltb_spec (Z.of_nat k) 0); [lia|]. rewrite Nat2Z.id.
  destruct (nth_error a k) eqn:E.
  - rewrite Forall_forall in Hall. apply Hall. eapply nth_error_In. eassumption.
  - apply nth_error_None in E. lia.
Qed.

(** The cosine transform of finite numbers is finite, and has as many
    coefficients as asked for. *)
Lemma dct_finite (input : list number) (numCoeffs : Z) :
  Forall JS.finite input -> Forall JS.finite (_dct input numCoeffs).
Proof.
  intros Hin. unfold _dct. cbv zeta.
  rewrite for_lt_rounds by lia.
  apply (rounds_inv (Forall JS.finite)); [constructor|].
  intros k l Hk Hl. cbv beta.
  apply Forall_app. split; [assumption|]. constructor; [|constructor].
  rewrite for_array. apply finite_sum; [exists 0; reflexivity|].
  intros n Hn.
  destruct (getn_finite input n Hin Hn) as [x ->].
  assert (HN : IZR (len input) <> 0).
  { apply Rgt_not_eq. apply IZR_lt. unfold len. lia. }
  fin_arith. rewrite div_fin by assumption.
  cbn [JS.cos JS.mul]. eexists. reflexivity.
Qed.

Lemma dct_length (input : list number) (numCoeffs : Z) :
  length (_dct input numCoeffs) = Z.to_nat numCoeffs.
Proof.
  unfold _dct. cbv zeta. rewrite for_lt_rounds by lia. rewrite trip_unit.
  rewrite rounds_length.
  - f_equal. lia.
  - intros k l. rewrite length_app. simpl. lia.
Qed.

Lemma getMFCCs_length (e : AudioEngine) : length (getMFCCs e) = 13%nat.
Proof.
  unfold getMFCCs. destruct (usable (getFrequencyData e)).
  - rewrite dct_length. reflexivity.
  - rewrite repeat_length. reflexivity.
Qed.

(** X18.  [getMFCCs] returns 13 coefficients for every frame, with or
    without buffers, and so does the record of [getAllFeatures]. *)
Theorem mfcc_count (e : AudioEngine) (this : AudioAnalyzer) :
  length (getMFCCs e) = 13%nat
  /\ length (mfccs (fst (getAllFeatures e this))) = 13%nat.
Proof.
  split; [apply getMFCCs_length|].
  unfold getAllFeatures.
  destruct (getSpectralFlux e this) as [flux this1].
  destruct (getFrequencyModulation e this1). apply getMFCCs_length.
Qed.

(** X19.  For a byte spectrum and a positive sample rate every mel filter
    output is finite and not negative, no filter weight divides by zero,
    and all 13 cepstral coefficients are finite numbers. *)
Theorem mfcc_finite (s w : Uint8Array) (sr : R) :
  Forall uint8 s -> 0 < sr ->
  (s <> [] -> Forall nonnegative (_applyMelFilterbank s (Fin sr) (len s)))
  /\ Forall JS.finite (getMFCCs (frame s w sr)).
Proof.
  intros Hu Hsr. split; [intros Hs; apply applyMelFilterbank_nonnegative; assumption|].
  destruct s as [|x s'] eqn:E.
  { apply Forall_repeat. exists 0. reflexivity. }
  rewrite <- E in *. assert (Hs : s <> []) by (subst; discriminate). clear E.
  unfold getMFCCs. simpl getFrequencyData. simpl getSampleRate.
  rewrite usable_nonempty by assumption. cbv zeta.
  apply dct_finite. apply Forall_map.
  eapply Forall_impl; [|apply applyMelFilterbank_nonnegative; assumption].
  intros a [r [-> Hr]]. fin_arith. unfold JS.log.
  destruct (Rlt_dec 0 (r + 1)) as [_|Hn]; [eexists; reflexivity|].
  exfalso. apply Hn. lra.
Qed.

Lemma mfcc_finite_witness :
  Forall nonnegative (_applyMelFilterbank [0; 200; 17; 3]%Z (Fin 44100)
                                          (len [0; 200; 17; 3]%Z))
  /\ Forall JS.finite (getMFCCs (frame [0; 200; 17; 3]%Z [] 44100)).
Proof.
  assert (Hu : Forall uint8 [0; 200; 17; 3]%Z)
    by (repeat constructor; unfold uint8; lia).
  assert (Hsr : 0 < 44100) by lra.
  destruct (mfcc_finite [0; 200; 17; 3]%Z [] 44100 Hu Hsr) as [Hmel Hfin].
  split; [apply Hmel; discriminate|exact Hfin].
Defined.

Lemma zero_sum (n : nat) (term : nat -> number) :
  (forall k, (k < n)%nat -> term k = Fin 0) ->
  rounds n (fun k acc => (acc + term k)%js) (Fin 0) = Fin 0.
Proof.
  intros H. rewrite (rounds_sum n term (fun _ => 0) 0) by assumption.
  f_equal. rewrite bigsum_zero by reflexivity. lra.
Qed.

Lemma filter_sum_silence (s : Uint8Array) (lo ce hi : Z) :
  Forall (eq 0%Z) s -> (0 <= lo)%Z ->
  for_lt lo (Z.min hi (len s)) 1
    (fun j sum =>
       (sum
        + get s j
          * JS.max 0
              (if (IZR j <? Fin (IZR ce))%js
               then ((IZR j - Fin (IZR lo)) / (Fin (IZR ce) - Fin (IZR lo)))%js
               else ((Fin (IZR hi) - IZR j) / (Fin (IZR hi) - Fin (IZR ce)))%js))%js)
    (Fin 0)
  = Fin 0.
Proof.
  intros Hz Hlo. rewrite for_lt_rounds by lia. rewrite trip_unit.
  apply zero_sum. intros k Hk.
  set (j := (lo + Z.of_nat k * 1)%Z).
  assert (Hj : (lo <= j < Z.min hi (len s))%Z) by (unfold j; lia).
  assert (Hget : get s j = Fin 0).
  { replace j with (Z.of_nat (Z.to_nat j)) by lia.
    rewrite get_val by (unfold len in Hj; lia).
    rewrite (val_all s 0) by (try assumption; unfold len in Hj; lia).
    reflexivity. }
  rewrite Hget. unfold JS.lt. rewrite gt_IZR. fin_arith.
  assert (Hweight : forall a b : R, b <> 0 ->
            (Fin 0 * JS.max 0 (Fin a / Fin b))%js = Fin 0).
  { intros a b Hb. rewrite div_fin by assumption. rewrite max_fin. fin_arith.
    f_equal. ring. }
  destruct (Z.ltb_spec j ce) as [Hlt|Hge]; apply Hweight.
  - assert (IZR lo < IZR ce) by (apply IZR_lt; lia). lra.
  - assert (IZR ce < IZR hi) by (apply IZR_lt; lia). lra.
Qed.

Lemma applyMelFilterbank_silence (s : Uint8Array) (sr : R) :
  s <> [] -> Forall (eq 0%Z) s -> 0 < sr ->
  Forall (eq (Fin 0)) (_applyMelFilterbank s (Fin sr) (len s)).
Proof.
  intros Hs Hz Hsr. unfold _applyMelFilterbank. cbv zeta.
  rewrite for_lt_rounds by lia.
  apply (rounds_inv (Forall (eq (Fin 0)))); [constructor|].
  intros k l Hk Hl. cbv beta.
  apply Forall_app. split; [assumption|]. constructor; [|constructor].
  match goal with
  | |- _ = match binLoopBounds ?LB ?HB _ with _ => _ end =>
      set (lowBin := LB); set (highBin := HB)
  end.
  match goal with
  | |- context [(_ <? ?CB)%js] => set (centerBin := CB)
  end.
  pose proof (melOf_nonneg (sr / 2)) as HM.
  assert (Hst : 0 <= (melOf (sr / 2) + - 0) / (IZR numMelFilters + 1)).
  { apply div_nonneg; [lra|unfold numMelFilters; lra]. }
  assert (Hk0 : 0 <= IZR (0 + Z.of_nat k * 1)) by (apply IZR_le; lia).
  assert (Hlow : exists z, lowBin = Fin (IZR z) /\ (0 <= z)%Z).
  { unfold lowBin.
    rewrite (div_fin sr 2) by lra.
    rewrite (freqToMel_fin 0) by lra. rewrite (freqToMel_fin (sr / 2)) by lra.
    rewrite melOf_zero.
    repeat (fin_arith;
            first [rewrite melToFreq_fin
                  |rewrite div_fin by (unfold numMelFilters; lra)]).
    cbn [JS.floor]. eexists. split; [reflexivity|].
    apply Zfloor_lub. apply Rmult_le_pos; [|apply IZR_le; unfold len; lia].
    apply div_nonneg; [|lra]. apply freqOf_nonneg.
    set (st := (melOf (sr / 2) + - 0) / (IZR numMelFilters + 1)) in *.
    nra. }
  assert (Hcenter : exists z, centerBin = Fin (IZR z)).
  { unfold centerBin.
    rewrite (div_fin sr 2) by lra.
    rewrite (freqToMel_fin 0) by lra. rewrite (freqToMel_fin (sr / 2)) by lra.
    rewrite melOf_zero.
    repeat (fin_arith;
            first [rewrite melToFreq_fin
                  |rewrite div_fin by (unfold numMelFilters; lra)]).
    cbn [JS.floor]. eexists. reflexivity. }
  assert (Hhigh : exists z, highBin = Fin (IZR z)).
  { unfold highBin.
    rewrite (div_fin sr 2) by lra.
    rewrite (freqToMel_fin 0) by lra. rewrite (freqToMel_fin (sr / 2)) by lra.
    rewrite melOf_zero.
    repeat (fin_arith;
            first [rewrite melToFreq_fin
                  |rewrite div_fin by (unfold numMelFilters; lra)]).
    cbn [JS.floor]. eexists. reflexivity. }
  destruct Hlow as [lo [Hlow Hlo]], Hcenter as [ce Hce], Hhigh as [hi Hhi].
  rewrite Hlow, Hce, Hhi. cbn [binLoopBounds]. rewrite ZfloorZ, Zceil_IZR.
  symmetry. apply filter_sum_silence; assumption.
Qed.

Lemma dct_zero (input : list number) (numCoeffs : Z) :
  Forall (eq (Fin 0)) input -> Forall (eq (Fin 0)) (_dct input numCoeffs).
Proof.
  intros Hin. unfold _dct. cbv zeta.
  rewrite for_lt_rounds by lia.
  apply (rounds_inv (Forall (eq (Fin 0)))); [constructor|].
  intros k l Hk Hl. cbv beta.
  apply Forall_app. split; [assumption|]. constructor; [|constructor].
  rewrite for_array. symmetry. apply zero_sum.
  intros n Hn.
  assert (Hx : getn input (Z.of_nat n) = Fin 0).
  { unfold getn. destruct (Z.ltb_spec (Z.of_nat n) 0); [lia|]. rewrite Nat2Z.id.
    destruct (nth_error input n) eqn:E.
    - rewrite Forall_forall in Hin. symmetry. apply Hin.
      eapply nth_error_In. eassumption.
    - apply nth_error_None in E. lia. }
  rewrite Hx.
  assert (HN : IZR (len input) <> 0).
  { apply Rgt_not_eq. apply IZR_lt. unfold len. lia. }
  fin_arith. rewrite div_fin by assumption.
  cbn [JS.cos JS.mul]. f_equal. ring.
Qed.




(* ================================================================== *)
(** ** The whole record *)

Lemma getAllFeatures_fields (e : AudioEngine) (this : AudioAnalyzer) :
  fst (getAllFeatures e this)
  = {| rms := getRMS e;
       peak := getPeak e;
       spectralCentroid := getSpectralCentroid e;
       spectralSpread := getSpectralSpread e;
       spectralFlux := fst (getSpectralFlux e this);
       spectralEntropy := getSpectralEntropy e;
       tonality := getTonality e;
       pitch := getPitch e;
       amplitudeModulation := getAmplitudeModulation e;
       frequencyModulation :=
         fst (getFrequencyModulation e (snd (getSpectralFlux e this)));
       mfccs := getMFCCs e |}.
Proof.
  unfold getAllFeatures.
  destruct (getSpectralFlux e this) as [flux this1]. cbn [fst snd].
  destruct (getFrequencyModulation e this1). reflexivity.
Qed.

Lemma within_finite (lo hi : R) (x : number) : JS.within lo hi x -> JS.finite x.
Proof. intros [r [-> _]]. exists r. reflexivity. Qed.

Lemma getAllFeatures_finite
      (s w : Uint8Array) (sr : R) (this : AudioAnalyzer) :
  (2 <= length s)%nat ->
  Forall uint8 s ->
  Forall uint8 w ->
  0 < sr ->
  (forall prev, prevSpectrum this = Some prev -> Forall uint8 prev) ->
  let r := fst (getAllFeatures (frame s w sr) this) in
  JS.within 0 1 (rms r)
  /\ JS.within 0 1 (peak r)
  /\ JS.finite (spectralCentroid r)
  /\ JS.finite (spectralSpread r)
  /\ JS.within 0 255 (spectralFlux r)
  /\ JS.within 0 1 (spectralEntropy r)
  /\ JS.within 0 1 (tonality r)
  /\ JS.finite (pitch r)
  /\ JS.within 0 1 (amplitudeModulation r)
  /\ JS.within 0 1 (frequencyModulation r)
  /\ Forall JS.finite (mfccs r).
Proof.
  intros Hn Hu Hw Hsr Hprev. cbv zeta.
  assert (Hs : s <> []) by (destruct s; [simpl in Hn; lia|discriminate]).
  rewrite getAllFeatures_fields.
  cbn [rms peak spectralCentroid spectralSpread spectralFlux spectralEntropy
       tonality pitch amplitudeModulation frequencyModulation mfccs].
  repeat split.
  - destruct w as [|x w'] eqn:E; [exists 0; split; [reflexivity|lra]|].
    rewrite <- E in *. assert (Hwn : w <> []) by (subst; discriminate). clear E.
    rewrite getRMS_sample by assumption.
    eexists. split; [reflexivity|]. split; [apply sqrt_pos|].
    rewrite <- sqrt_1. apply sqrt_le_1_alt.
    apply mean_bound; [apply length_pos; assumption|].
    intros k _. pose proof (sample_range w k Hw). nra.
  - rewrite getPeak_closed. eexists. split; [reflexivity|].
    split; [apply bigmax_nonneg|].
    apply bigmax_le; [lra|]. intros k _. unfold deviation.
    apply div_le_one; [lra|].
    pose proof (val_uint8 w k Hw). apply Rabs_le. lra.
  - rewrite getSpectralCentroid_closed. eexists. reflexivity.
  - rewrite getSpectralSpread_closed.
    destruct (Rlt_dec 0 (totalMagnitude s)) as [Hpos|_]; [|exists 0; reflexivity].
    pose proof (weightedDeviation_range s sr Hs Hu (Rlt_le _ _ Hsr)) as [Hlo _].
    rewrite sqrt_fin by (apply div_nonneg; assumption).
    eexists. reflexivity.
  - destruct (prevSpectrum this) as [prev|] eqn:Ep.
    + rewrite (getSpectralFlux_later s w prev) by assumption. cbn [fst].
      eexists. split; [reflexivity|].
      apply flux_value_range; try assumption. apply Hprev. reflexivity.
    + rewrite getSpectralFlux_first by assumption.
      exists 0. split; [reflexivity|lra].
  - apply getSpectralEntropy_range; assumption.
  - rewrite getTonality_closed.
    destruct (Rlt_dec 0 (interiorEnergy s)) as [Hpos|_];
      [|exists 0; split; [reflexivity|lra]].
    eexists. split; [reflexivity|].
    pose proof (peakEnergy_range s Hu) as [Hp0 Hp1].
    assert (0 <= peakEnergy s / interiorEnergy s) by (apply div_nonneg; assumption).
    split; [apply Rmin_glb; lra|apply Rmin_l].
  - destruct (getPitch_searched s w sr) as [->|[p [_ [_ [_ ->]]]]];
      eexists; reflexivity.
  - destruct (Nat.lt_ge_cases (envelopeCount w) 2) as [Hfew|Hm].
    + rewrite getAmplitudeModulation_few by assumption.
      exists 0. split; [reflexivity|lra].
    + rewrite getAmplitudeModulation_closed by assumption.
      eexists. split; [reflexivity|]. split; [|apply Rmin_l].
      apply Rmin_glb; [lra|]. apply div_nonneg; [apply sqrt_pos|lra].
  - rewrite getSpectralFlux_stores by assumption.
    unfold getFrequencyModulation.
    rewrite getSpectralFlux_again by assumption. cbn [fst].
    rewrite min_one_zero. exists 0. split; [reflexivity|lra].
  - unfold getMFCCs. simpl getFrequencyData. simpl getSampleRate.
    rewrite usable_nonempty by assumption. cbv zeta.
    apply dct_finite. apply Forall_map.
    eapply Forall_impl; [|apply applyMelFilterbank_nonnegative; assumption].
    intros a [x [-> Hx]]. fin_arith. unfold JS.log.
    destruct (Rlt_dec 0 (x + 1)) as [_|Hneg]; [eexists; reflexivity|].
    exfalso. apply Hneg. lra.
Qed.



(* ================================================================== *)
(** ** Playback *)

Lemma min_fin (a b : R) : JS.min (Fin a) (Fin b) = Fin (Rmin a b).
Proof.
  unfold JS.min, JS.gt, Rmin.
  destruct (Rlt_dec b a), (Rle_dec a b); try reflexivity; try lra.
Qed.





(* ================================================================== *)
(** ** The MFCC bars and the progress bar *)

Lemma mfccBarScale_fin (m : R) :
  mfccBarScale (Fin m) = Fin (Rmin 1 (Rmax 0 ((m + 40) / 80))).
Proof.
  unfold mfccBarScale. fin_arith. rewrite div_fin by lra.
  rewrite max_fin, min_fin. reflexivity.
Qed.

Lemma getn_nth (a : list number) (k : nat) :
  (k < length a)%nat -> getn a (Z.of_nat k) = nth k a NaN.
Proof.
  intros Hk. unfold getn.
  destruct (Z.ltb_spec (Z.of_nat k) 0); [lia|]. rewrite Nat2Z.id.
  destruct (nth_error a k) eqn:E.
  - symmetry. apply nth_error_nth. assumption.
  - apply nth_error_None in E. lia.
Qed.

Lemma mfccBarScales_all (P Q : number -> Prop) (r : Features) :
  (forall x, P x -> Q (mfccBarScale x)) ->
  Forall P (mfccs r) -> Forall Q (mfccBarScales r).
Proof.
  intros HPQ Hall. unfold mfccBarScales.
  rewrite for_lt_rounds by lia. rewrite trip_unit.
  apply (rounds_inv (Forall Q)); [constructor|].
  intros k l Hk Hl. apply Forall_app. split; [assumption|].
  constructor; [|constructor]. apply HPQ.
  replace (0 + Z.of_nat k * 1)%Z with (Z.of_nat k) by lia.
  assert (Hin : (k < length (mfccs r))%nat) by (unfold len in Hk; lia).
  rewrite getn_nth by assumption.
  rewrite Forall_forall in Hall. apply Hall. apply nth_In. assumption.
Qed.

Lemma mfccBarScales_length (r : Features) :
  length (mfccBarScales r) = Nat.min 13 (length (mfccs r)).
Proof.
  unfold mfccBarScales. rewrite for_lt_rounds by lia. rewrite trip_unit.
  rewrite rounds_length.
  - unfold len. lia.
  - intros k l. rewrite length_app. simpl. lia.
Qed.

(** X24.  For a byte spectrum and a positive sample rate,
    [updateMFCCSidebar] sets 13 bar scales, each a number of [0, 1]; on a
    silent spectrum every bar stands at one half. *)
Theorem mfcc_bars_unit_interval
        (s w : Uint8Array) (sr : R) (this : AudioAnalyzer) :
  Forall uint8 s -> 0 < sr ->
  let r := fst (getAllFeatures (frame s w sr) this) in
  length (mfccBarScales r) = 13%nat
  /\ Forall (JS.within 0 1) (mfccBarScales r)
  /\ (Forall (eq 0%Z) s -> Forall (eq (Fin (1 / 2))) (mfccBarScales r)).
Proof.
  intros Hu Hsr. cbv zeta.
  assert (Hm : mfccs (fst (getAllFeatures (frame s w sr) this))
               = getMFCCs (frame s w sr)).
  { rewrite getAllFeatures_fields. reflexivity. }
  split; [|split].
  - rewrite mfccBarScales_length, Hm, getMFCCs_length. reflexivity.
  - apply (mfccBarScales_all JS.finite).
    + intros y [m ->]. rewrite mfccBarScale_fin.
      eexists. split; [reflexivity|].
      split; [apply Rmin_glb; [lra|apply Rmax_l]|apply Rmin_l].
    + rewrite Hm.
      destruct s as [|x s'] eqn:E.
      { apply Forall_repeat. exists 0. reflexivity. }
      rewrite <- E in *. assert (Hs : s <> []) by (subst; discriminate). clear E.
      unfold getMFCCs. simpl getFrequencyData. simpl getSampleRate.
      rewrite usable_nonempty by assumption. cbv zeta.
      apply dct_finite. apply Forall_map.
      eapply Forall_impl; [|apply applyMelFilterbank_nonnegative; assumption].
      intros a [y [-> Hy]]. fin_arith. unfold JS.log.
      destruct (Rlt_dec 0 (y + 1)) as [_|Hneg]; [eexists; reflexivity|].
      exfalso. apply Hneg. lra.
  - intros Hz. apply (mfccBarScales_all (eq (Fin 0))).
    + intros y <-. rewrite mfccBarScale_fin. f_equal.
      replace ((0 + 40) / 80) with (1 / 2) by lra.
      rewrite Rmax_right by lra. rewrite Rmin_right by lra. reflexivity.
    + rewrite Hm.
      destruct s as [|x s'] eqn:E.
      { apply Forall_repeat. reflexivity. }
      rewrite <- E in *. assert (Hs : s <> []) by (subst; discriminate). clear E.
      unfold getMFCCs. simpl getFrequencyData. simpl getSampleRate.
      rewrite usable_nonempty by assumption. cbv zeta.
      apply dct_zero. apply Forall_map.
      eapply Forall_impl; [|apply applyMelFilterbank_silence; assumption].
      intros a <-. fin_arith. unfold JS.log.
      destruct (Rlt_dec 0 (0 + 1)) as [_|Hn]; [|exfalso; apply Hn; lra].
      f_equal. rewrite Rplus_0_l. symmetry. apply ln_1.
Qed.

Lemma mfcc_bars_unit_interval_witness :
  let r := fst (getAllFeatures (frame silentSpectrum silentWaveform 44100)
                               newAnalyzer) in
  length (mfccBarScales r) = 13%nat
  /\ Forall (JS.within 0 1) (mfccBarScales r)
  /\ Forall (eq (Fin (1 / 2))) (mfccBarScales r).
Proof.
  assert (Hu : Forall uint8 silentSpectrum)
    by (apply Forall_repeat; unfold uint8; lia).
  assert (Hsr : 0 < 44100) by lra.
  destruct (mfcc_bars_unit_interval silentSpectrum silentWaveform 44100
              newAnalyzer Hu Hsr) as (Hlen & Hin & Hhalf).
  cbv zeta. split; [exact Hlen|]. split; [exact Hin|].
  apply Hhalf. apply Forall_repeat. reflexivity.
Defined.


(* ================================================================== *)
(** ** Arrays written in place *)

Lemma setn_length (a : list number) (k : nat) (x : number) :
  (k < length a)%nat -> length (setn a (Z.of_nat k) x) = length a.
Proof.
  intros Hk. unfold setn, len.
  destruct (Z.ltb_spec (Z.of_nat k) 0); [lia|].
  destruct (Z.ltb_spec (Z.of_nat k) (Z.of_nat (length a))); [|lia].
  rewrite Nat2Z.id, length_app. cbn [length].
  rewrite length_firstn, length_skipn. lia.
Qed.

Lemma setn_same (a : list number) (k : nat) (x : number) :
  (k < length a)%nat -> getn (setn a (Z.of_nat k) x) (Z.of_nat k) = x.
Proof.
  intros Hk. rewrite getn_nth by (rewrite setn_length; assumption).
  unfold setn, len.
  destruct (Z.ltb_spec (Z.of_nat k) 0); [lia|].
  destruct (Z.ltb_spec (Z.of_nat k) (Z.of_nat (length a))); [|lia].
  rewrite Nat2Z.id. rewrite app_nth2 by (rewrite length_firstn; lia).
  rewrite length_firstn. replace (k - Nat.min k (length a))%nat with 0%nat by lia.
  reflexivity.
Qed.

Lemma setn_other (a : list number) (k j : nat) (x : number) :
  (k < length a)%nat -> j <> k ->
  nth j (setn a (Z.of_nat k) x) NaN = nth j a NaN.
Proof.
  intros Hk Hj. unfold setn, len.
  destruct (Z.ltb_spec (Z.of_nat k) 0); [lia|].
  destruct (Z.ltb_spec (Z.of_nat k) (Z.of_nat (length a))); [|lia].
  rewrite Nat2Z.id.
  rewrite <- (firstn_skipn k a) at 3.
  destruct (Nat.lt_ge_cases j k) as [Hlt|Hge].
  - rewrite !app_nth1 by (rewrite length_firstn; lia). reflexivity.
  - rewrite !app_nth2 by (rewrite length_firstn; lia).
    rewrite length_firstn. replace (Nat.min k (length a)) with k by lia.
    destruct (j - k)%nat as [|m] eqn:Em; [lia|]. cbn [nth].
    rewrite !nth_skipn. f_equal. lia.
Qed.

(** A loop that rewrites entry [i] of an array from its old value, for
    [i] from 0: entries below the counter are rewritten, the others are as
    they were. *)
Lemma rounds_setn (F : nat -> number -> number) (a : list number) (k : nat) :
  (k <= length a)%nat ->
  rounds k (fun i vals =>
              setn vals (Z.of_nat i) (F i (getn vals (Z.of_nat i)))) a
  = map (fun i => F i (nth i a NaN)) (seq 0 k) ++ skipn k a.
Proof.
  induction k as [|k IH]; intros Hk; [reflexivity|].
  cbn [rounds]. rewrite IH by lia.
  set (done := map (fun i => F i (nth i a NaN)) (seq 0 k)).
  assert (Hdone : length done = k) by (unfold done; rewrite length_map, length_seq; reflexivity).
  assert (Hrest : skipn k a = nth k a NaN :: skipn (S k) a).
  { clear -Hk. revert a Hk. induction k as [|k IH]; intros a Hk.
    - destruct a; [simpl in Hk; lia|reflexivity].
    - destruct a as [|x a]; [simpl in Hk; lia|]. simpl in Hk.
      cbn [skipn nth]. apply IH. lia. }
  rewrite Hrest.
  assert (Hget : getn (done ++ nth k a NaN :: skipn (S k) a) (Z.of_nat k)
                 = nth k a NaN).
  { rewrite getn_nth by (rewrite length_app; cbn [length]; lia).
    rewrite app_nth2 by lia. rewrite Hdone, Nat.sub_diag. reflexivity. }
  rewrite Hget. unfold setn, len.
  destruct (Z.ltb_spec (Z.of_nat k) 0); [lia|].
  rewrite length_app. cbn [length].
  destruct (Z.ltb_spec (Z.of_nat k) (Z.of_nat (length done + S (length (skipn (S k) a)))));
    [|lia].
  rewrite Nat2Z.id.
  rewrite firstn_app, Hdone, Nat.sub_diag. cbn [firstn].
  rewrite firstn_all2 by lia. rewrite app_nil_r.
  rewrite skipn_app, Hdone.
  rewrite (skipn_all2 done) by lia.
  replace (S k - k)%nat with 1%nat by lia. cbn [skipn app].
  rewrite seq_S, map_app. cbn [map Nat.add]. fold done.
  rewrite <- app_assoc. reflexivity.
Qed.

(* ================================================================== *)
(** ** The radar chart *)

Lemma clamp_unit (x : number) :
  x <> NaN -> JS.within 0 1 (JS.min 1 (JS.max 0 x)).
Proof.
  intros Hx. destruct x as [r| | |]; try contradiction.
  - rewrite max_fin, min_fin. eexists. split; [reflexivity|].
    split; [apply Rmin_glb; [lra|apply Rmax_l]|apply Rmin_l].
  - exists 1. split; [|lra]. cbn. destruct (Rlt_dec 1 1); [lra|reflexivity].
  - exists 0. split; [|lra]. cbn. destruct (Rlt_dec 0 1); [reflexivity|lra].
Qed.

Lemma smoothing_step (v t : R) :
  0 <= v <= 1 -> 0 <= t <= 1 ->
  0 <= v + (t + - v) * VocalSignature.smoothing <= 1.
Proof. unfold VocalSignature.smoothing. intros Hv Ht. nra. Qed.

Lemma newValues_finite (r : Features) :
  JS.within 0 1 (rms r) -> JS.within 0 1 (peak r) ->
  JS.finite (spectralCentroid r) -> JS.finite (spectralSpread r) ->
  JS.within 0 1 (spectralEntropy r) -> JS.within 0 1 (tonality r) ->
  JS.within 0 1 (amplitudeModulation r) ->
  JS.within 0 1 (frequencyModulation r) ->
  Forall JS.finite (VocalSignature.newValues r).
Proof.
  intros [a [Ha Ha']] [p [Hp Hp']] [c Hc] [d Hd] [e [He He']] [t [Ht Ht']]
         [am [Ham Ham']] [fm [Hfm Hfm']].
  unfold VocalSignature.newValues. rewrite Ha, Hp, Hc, Hd, He, Ht, Ham, Hfm.
  fin_arith. rewrite !div_fin by lra. fin_arith. rewrite !min_fin.
  rewrite div_fin by lra.
  repeat constructor; try (eexists; reflexivity).
  destruct (Fin p >? 0)%js; eexists; reflexivity.
Qed.

Lemma radar_values (features : Features) (this : VocalSignature.t) :
  VocalSignature.values (VocalSignature.update features this)
  = map (fun i =>
           (nth i (VocalSignature.values this) NaN
            + (JS.min 1 (JS.max 0 (getn (VocalSignature.newValues features)
                                        (Z.of_nat i)))
               - nth i (VocalSignature.values this) NaN)
              * VocalSignature.smoothing)%js)
        (seq 0 (length (VocalSignature.values this))).
Proof.
  unfold VocalSignature.update. cbn [VocalSignature.values].
  rewrite for_array.
  etransitivity.
  - exact (rounds_setn
             (fun i v =>
                (v + (JS.min 1 (JS.max 0 (getn (VocalSignature.newValues features)
                                               (Z.of_nat i))) - v)
                     * VocalSignature.smoothing)%js)
             (VocalSignature.values this)
             (length (VocalSignature.values this)) (le_n _)).
  - rewrite skipn_all, app_nil_r. reflexivity.
Qed.

Lemma nth_map_seq (g : nat -> number) (n i : nat) :
  (i < n)%nat -> nth i (map g (seq 0 n)) NaN = g i.
Proof.
  intros Hi. rewrite (nth_indep _ NaN (g 0%nat))
    by (rewrite length_map, length_seq; assumption).
  rewrite map_nth. rewrite seq_nth by assumption. reflexivity.
Qed.

Lemma radar_update_values (features : Features) (this : VocalSignature.t) :
  length (VocalSignature.values this) = 8%nat ->
  Forall (JS.within 0 1) (VocalSignature.values this) ->
  Forall JS.finite (VocalSignature.newValues features) ->
  length (VocalSignature.values (VocalSignature.update features this)) = 8%nat
  /\ Forall (JS.within 0 1)
            (VocalSignature.values (VocalSignature.update features this))
  /\ (forall i, (i < 8)%nat ->
      exists v t,
        nth i (VocalSignature.values this) NaN = Fin v
        /\ JS.min 1 (JS.max 0 (nth i (VocalSignature.newValues features) NaN))
           = Fin t
        /\ 0 <= t <= 1
        /\ nth i (VocalSignature.values (VocalSignature.update features this)) NaN
           = Fin (v + (t - v) * 0.15)).
Proof.
  intros Hlen Hin Hnew. rewrite radar_values, Hlen.
  assert (Hnl : length (VocalSignature.newValues features) = 8%nat) by reflexivity.
  assert (Hstep : forall i, (i < 8)%nat ->
      exists v t,
        nth i (VocalSignature.values this) NaN = Fin v
        /\ JS.min 1 (JS.max 0 (nth i (VocalSignature.newValues features) NaN))
           = Fin t
        /\ 0 <= t <= 1 /\ 0 <= v <= 1).
  { intros i Hi.
    rewrite Forall_forall in Hin, Hnew.
    destruct (Hin (nth i (VocalSignature.values this) NaN)) as [v [Hv Hv']];
      [apply nth_In; lia|].
    destruct (Hnew (nth i (VocalSignature.newValues features) NaN)) as [x Hx];
      [apply nth_In; lia|].
    destruct (clamp_unit (nth i (VocalSignature.newValues features) NaN))
      as [t [Ht Ht']]; [rewrite Hx; discriminate|].
    exists v, t. repeat split; try assumption; lra. }
  split; [rewrite length_map, length_seq; reflexivity|]. split.
  - apply Forall_forall. intros y Hy. apply in_map_iff in Hy.
    destruct Hy as [i [<- Hi]]. apply in_seq in Hi.
    destruct (Hstep i) as [v [t [Hv [Ht [Ht' Hv']]]]]; [lia|].
    rewrite getn_nth by lia. rewrite Hv, Ht. fin_arith.
    eexists. split; [reflexivity|]. apply smoothing_step; assumption.
  - intros i Hi. destruct (Hstep i Hi) as [v [t [Hv [Ht [Ht' Hv']]]]].
    exists v, t. split; [assumption|]. split; [assumption|]. split; [assumption|].
    rewrite nth_map_seq by assumption.
    rewrite getn_nth by lia. rewrite Hv, Ht. reflexivity.
Qed.

Lemma radar_update_history (features : Features) (this : VocalSignature.t) :
  (length (VocalSignature.history this) <= 10)%nat ->
  length (VocalSignature.history (VocalSignature.update features this))
  = Nat.min (S (length (VocalSignature.history this))) 10
  /\ last (VocalSignature.history (VocalSignature.update features this)) []
     = VocalSignature.values (VocalSignature.update features this).
Proof.
  intros Hlen. unfold VocalSignature.update.
  cbn [VocalSignature.history VocalSignature.values].
  match goal with
  | |- context [VocalSignature.history this ++ [?v]] => set (vals := v)
  end.
  unfold len, VocalSignature.maxHistory. rewrite length_app. cbn [length].
  destruct (Z.ltb_spec 10 (Z.of_nat (length (VocalSignature.history this) + 1)))
    as [Hfull|Hroom].
  - destruct (VocalSignature.history this) as [|h rest] eqn:E;
      [cbn in Hfull; lia|].
    cbn [app tl length] in *. split.
    + rewrite length_app. cbn [length]. lia.
    + apply last_last.
  - split; [rewrite length_app; cbn [length]; lia|apply last_last].
Qed.

(** X26.  [VocalSignature.update] on the record of a frame (byte buffers,
    two bins or more, positive sample rate) keeps the eight radar values in
    [0, 1]: each moves from its old value [v] to [v + (t - v) * 0.15] for a
    target [t] of [0, 1], the clamped axis value; the trail gains the new
    values as its last entry and never holds more than 10 entries. *)
Theorem radar_update
        (s w : Uint8Array) (sr : R) (this : AudioAnalyzer)
        (radar : VocalSignature.t) :
  (2 <= length s)%nat -> Forall uint8 s -> Forall uint8 w -> 0 < sr ->
  (forall prev, prevSpectrum this = Some prev -> Forall uint8 prev) ->
  length (VocalSignature.values radar) = 8%nat ->
  Forall (JS.within 0 1) (VocalSignature.values radar) ->
  (length (VocalSignature.history radar) <= 10)%nat ->
  let r := fst (getAllFeatures (frame s w sr) this) in
  let radar' := VocalSignature.update r radar in
  length (VocalSignature.values radar') = 8%nat
  /\ Forall (JS.within 0 1) (VocalSignature.values radar')
  /\ (forall i, (i < 8)%nat ->
      exists v t,
        nth i (VocalSignature.values radar) NaN = Fin v
        /\ JS.min 1 (JS.max 0 (nth i (VocalSignature.newValues r) NaN)) = Fin t
        /\ 0 <= t <= 1
        /\ nth i (VocalSignature.values radar') NaN = Fin (v + (t - v) * 0.15))
  /\ length (VocalSignature.history radar')
     = Nat.min (S (length (VocalSignature.history radar))) 10
  /\ last (VocalSignature.history radar') [] = VocalSignature.values radar'.
Proof.
  intros Hn Hu Hw Hsr Hprev Hlen Hin Hhist. cbv zeta.
  destruct (getAllFeatures_finite s w sr this Hn Hu Hw Hsr Hprev)
    as (Hrms & Hpeak & Hc & Hd & _ & He & Ht & _ & Ham & Hfm & _).
  pose proof (newValues_finite _ Hrms Hpeak Hc Hd He Ht Ham Hfm) as Hnew.
  destruct (radar_update_values _ radar Hlen Hin Hnew) as (H1 & H2 & H3).
  destruct (radar_update_history (fst (getAllFeatures (frame s w sr) this))
              radar Hhist) as (H4 & H5).
  repeat split; assumption.
Qed.

Lemma radar_update_witness :
  let r := fst (getAllFeatures (frame [0; 200; 17; 3]%Z [128; 0; 255]%Z 44100)
                               newAnalyzer) in
  let radar' := VocalSignature.update r VocalSignature.create in
  length (VocalSignature.values radar') = 8%nat
  /\ Forall (JS.within 0 1) (VocalSignature.values radar')
  /\ length (VocalSignature.history radar') = 1%nat.
Proof.
  assert (Hu : Forall uint8 [0; 200; 17; 3]%Z)
    by (repeat constructor; unfold uint8; lia).
  assert (Hw : Forall uint8 [128; 0; 255]%Z)
    by (repeat constructor; unfold uint8; lia).
  assert (Hin : Forall (JS.within 0 1)
                       (VocalSignature.values VocalSignature.create)).
  { apply Forall_repeat. exists 0. split; [reflexivity|lra]. }
  destruct (radar_update [0; 200; 17; 3]%Z [128; 0; 255]%Z 44100 newAnalyzer
              VocalSignature.create)
    as (H1 & H2 & _ & H4 & _);
    [simpl; lia|exact Hu|exact Hw|lra|discriminate|reflexivity|exact Hin
    |simpl; lia|].
  cbv zeta. split; [exact H1|]. split; [exact H2|exact H4].
Defined.

(* ================================================================== *)
(** ** The rolling buffers of the pitch map *)

Lemma setn_len (a : list number) (i : Z) (x : number) :
  (0 <= i < len a)%Z -> len (setn a i x) = len a.
Proof.
  intros Hi. unfold len in *.
  replace i with (Z.of_nat (Z.to_nat i)) by lia.
  rewrite setn_length by lia. reflexivity.
Qed.

Lemma setn_read (a : list number) (i : Z) (x : number) :
  (0 <= i < len a)%Z -> getn (setn a i x) i = x.
Proof.
  intros Hi. unfold len in *.
  replace i with (Z.of_nat (Z.to_nat i)) by lia.
  apply setn_same. lia.
Qed.

Lemma setn_keep (a : list number) (i : Z) (j : nat) (x : number) :
  (0 <= i < len a)%Z -> Z.of_nat j <> i ->
  nth j (setn a i x) NaN = nth j a NaN.
Proof.
  intros Hi Hj. unfold len in *.
  replace i with (Z.of_nat (Z.to_nat i)) by lia.
  apply setn_other; lia.
Qed.

(** X27.  [PitchMap.addData] keeps the three buffers at 300 entries and the
    write position inside them; the entry at the old position then holds
    the centroid, the pitch and their distance, every other entry is
    untouched, and the position advances by one, from 299 back to 0. *)
Theorem pitch_map_ring_buffer (centroid pitch : number) (this : PitchMap.t) :
  PitchMap.wellFormed this ->
  let this' := PitchMap.addData centroid pitch this in
  PitchMap.wellFormed this'
  /\ getn (PitchMap.centroidBuffer this') (PitchMap.index this) = centroid
  /\ getn (PitchMap.pitchBuffer this') (PitchMap.index this) = pitch
  /\ getn (PitchMap.gapBuffer this') (PitchMap.index this)
     = JS.abs (centroid - pitch)%js
  /\ (forall j, Z.of_nat j <> PitchMap.index this ->
        nth j (PitchMap.centroidBuffer this') NaN
        = nth j (PitchMap.centroidBuffer this) NaN
        /\ nth j (PitchMap.pitchBuffer this') NaN
           = nth j (PitchMap.pitchBuffer this) NaN
        /\ nth j (PitchMap.gapBuffer this') NaN
           = nth j (PitchMap.gapBuffer this) NaN)
  /\ PitchMap.index this'
     = (if (PitchMap.index this =? 299)%Z then 0 else PitchMap.index this + 1)%Z.
Proof.
  intros (Hc & Hp & Hg & Hi). cbv zeta.
  unfold PitchMap.addData, PitchMap.wellFormed.
  cbn [PitchMap.centroidBuffer PitchMap.pitchBuffer PitchMap.gapBuffer
       PitchMap.index].
  unfold PitchMap.bufferSize in *.
  assert (Hidx : Z.rem (PitchMap.index this + 1) 300
                 = (if (PitchMap.index this =? 299)%Z
                    then 0 else PitchMap.index this + 1)%Z).
  { destruct (Z.eqb_spec (PitchMap.index this) 299) as [->|Hne]; [reflexivity|].
    apply Z.rem_small. lia. }
  rewrite !setn_len by lia. rewrite !setn_read by lia.
  split; [|split; [|split; [|split; [|split]]]]; try reflexivity.
  - repeat split; try assumption.
    + apply Z.rem_nonneg; lia.
    + rewrite Hidx. destruct (Z.eqb_spec (PitchMap.index this) 299); lia.
  - intros j Hj. rewrite !setn_keep by lia. repeat split.
  - exact Hidx.
Qed.

Lemma pitch_map_ring_buffer_witness :
  let this' := PitchMap.addData (Fin 2153) (Fin 440) PitchMap.create in
  PitchMap.wellFormed this'
  /\ getn (PitchMap.centroidBuffer this') 0 = Fin 2153
  /\ getn (PitchMap.pitchBuffer this') 0 = Fin 440
  /\ PitchMap.index this' = 1%Z.
Proof.
  assert (Hwf : PitchMap.wellFormed PitchMap.create).
  { unfold PitchMap.wellFormed, PitchMap.create, len, PitchMap.bufferSize.
    cbn [PitchMap.centroidBuffer PitchMap.pitchBuffer PitchMap.gapBuffer
         PitchMap.index].
    rewrite repeat_length. repeat split; lia. }
  destruct (pitch_map_ring_buffer (Fin 2153) (Fin 440) PitchMap.create Hwf)
    as (H1 & H2 & H3 & _ & _ & H6).
  cbv zeta. split; [exact H1|]. split; [exact H2|]. split; [exact H3|exact H6].
Defined.

(* ================================================================== *)
(** ** The projection of the coefficients *)








(* ================================================================== *)
(** ** The provider's analysis step *)

Lemma floor_sixth (n : Z) : Zfloor (IZR n / 6) = (n / 6)%Z.
Proof.
  apply Zfloor_eq.
  pose proof (Z.div_mod n 6 ltac:(lia)) as Hdm.
  pose proof (Z.mod_pos_bound n 6 ltac:(lia)) as Hm.
  assert (Hn : IZR n = 6 * IZR (n / 6) + IZR (n mod 6)).
  { rewrite <- mult_IZR, <- plus_IZR. f_equal. exact Hdm. }
  assert (0 <= IZR (n mod 6) <= 5).
  { split; apply IZR_le; lia. }
  lra.
Qed.

Lemma provider_fields (fd td : Uint8Array) (sr : option R) :
  AudioProvider.frequencyBands (AudioProvider.analyze fd td sr)
  = for_lt 0 6 1 (fun band frequencyBands =>
      frequencyBands
      ++ [(for_lt (band * Zfloor (IZR (len fd) / 6))
                  (band * Zfloor (IZR (len fd) / 6) + Zfloor (IZR (len fd) / 6)) 1
                  (fun i bandSum => (bandSum + get fd i)%js) (Fin 0)
           / IZR (Zfloor (IZR (len fd) / 6)) / 255)%js]) [].
Proof.
  unfold AudioProvider.analyze. cbv zeta.
  destruct (for_lt 0 (len fd) 1 _ (Fin 0, 0%Z)). reflexivity.
Qed.

(** X29.  The provider's six frequency bands: with a byte spectrum of six
    bins or more each band is the mean of its bins divided by 255, a number
    of [0, 1]; with fewer than six bins the band size is 0 and every band
    is NaN. *)
Theorem provider_bands (fd td : Uint8Array) (sr : option R) :
  Forall uint8 fd ->
  let bands := AudioProvider.frequencyBands (AudioProvider.analyze fd td sr) in
  length bands = 6%nat
  /\ ((6 <= length fd)%nat -> Forall (JS.within 0 1) bands)
  /\ ((length fd < 6)%nat -> Forall (eq NaN) bands).
Proof.
  intros Hu. cbv zeta. rewrite provider_fields. rewrite floor_sixth.
  set (size := (len fd / 6)%Z).
  rewrite for_lt_rounds by lia. rewrite trip_unit.
  split; [|split].
  - rewrite rounds_length; [reflexivity|].
    intros k l. rewrite length_app. simpl. lia.
  - intros Hn.
    assert (Hsize : (1 <= size)%Z).
    { unfold size, len. apply Z.div_le_lower_bound; lia. }
    assert (Hcover : (6 * size <= len fd)%Z).
    { unfold size. apply Z.mul_div_le. lia. }
    apply (rounds_inv (Forall (JS.within 0 1))); [constructor|].
    intros b l Hb Hl. cbv beta.
    apply Forall_app. split; [assumption|]. constructor; [|constructor].
    rewrite for_lt_rounds by lia. rewrite trip_unit.
    set (start := ((0 + Z.of_nat b * 1) * size)%Z).
    replace (Z.to_nat (start + size - start)) with (Z.to_nat size) by lia.
    rewrite (rounds_sum _ _ (fun k => val fd (Z.to_nat start + k))).
    + rewrite Rplus_0_l.
      assert (HsR : 0 < IZR size) by (apply IZR_lt; lia).
      rewrite !div_fin by lra.
      eexists. split; [reflexivity|].
      assert (Hlo : 0 <= bigsum (Z.to_nat size)
                           (fun k => val fd (Z.to_nat start + k))).
      { apply bigsum_nonneg. intros k _. apply (val_uint8 fd _ Hu). }
      assert (Hhi : bigsum (Z.to_nat size)
                      (fun k => val fd (Z.to_nat start + k))
                    <= INR (Z.to_nat size) * 255).
      { apply bigsum_bound. intros k _. apply (val_uint8 fd _ Hu). }
      rewrite INR_IZR_INZ, Z2Nat.id in Hhi by lia.
      assert (Hq : 0 <= bigsum (Z.to_nat size)
                          (fun k => val fd (Z.to_nat start + k)) / IZR size
                   <= 255).
      { split; [apply div_nonneg; assumption|].
        apply (Rmult_le_reg_r (IZR size)); [assumption|].
        unfold Rdiv. rewrite Rmult_assoc, Rinv_l by lra. lra. }
      lra.
    + intros k Hk.
      replace (start + Z.of_nat k * 1)%Z with (Z.of_nat (Z.to_nat start + k))
        by (unfold start; lia).
      apply get_val. unfold len in Hcover. unfold start. nia.
  - intros Hn.
    assert (Hsize : size = 0%Z).
    { unfold size, len. apply Z.div_small. lia. }
    rewrite Hsize.
    apply (rounds_inv (Forall (eq NaN))); [constructor|].
    intros b l Hb Hl. cbv beta.
    apply Forall_app. split; [assumption|]. constructor; [|constructor].
    replace ((0 + Z.of_nat b * 1) * 0 + 0)%Z with ((0 + Z.of_nat b * 1) * 0)%Z by lia.
    unfold for_lt at 1. rewrite Z.sub_diag. cbn [Z.to_nat for_fuel].
    rewrite div_zero_zero. reflexivity.
Qed.

Lemma provider_bands_witness :
  let bands :=
    AudioProvider.frequencyBands
      (AudioProvider.analyze (repeat 255%Z 1024) silentWaveform (Some 48000)) in
  length bands = 6%nat /\ Forall (JS.within 0 1) bands.
Proof.
  destruct (provider_bands (repeat 255%Z 1024) silentWaveform (Some 48000))
    as (H1 & H2 & _).
  - apply Forall_repeat. unfold uint8. lia.
  - cbv zeta. split; [exact H1|]. apply H2. rewrite repeat_length. lia.
Defined.

Lemma provider_dominant_field (fd td : Uint8Array) (sr : option R) :
  AudioProvider.dominantFrequency (AudioProvider.analyze fd td sr)
  = (IZR (snd (for_lt 0 (len fd) 1
                 (fun i '(maxValue, maxIndex) =>
                    if (get fd i >? maxValue)%js
                    then (get fd i, i)
                    else (maxValue, maxIndex)) (Fin 0, 0%Z)))
     / IZR (len fd)
     * (Fin match sr with
            | Some r => if Req_dec_T r 0 then 44100 else r
            | None => 44100
            end / 2))%js.
Proof.
  unfold AudioProvider.analyze. cbv zeta.
  destruct (for_lt 0 (len fd) 1 _ (Fin 0, 0%Z)). reflexivity.
Qed.

(** The search for the loudest bin keeps the first bin that holds the
    largest magnitude seen so far. *)
Lemma loudest_bin_rounds (fd : Uint8Array) (m : nat) :
  (m <= length fd)%nat ->
  exists (M : R) (k : nat),
    rounds m
      (fun i => (fun i '(maxValue, maxIndex) =>
                   if (get fd i >? maxValue)%js
                   then (get fd i, i)
                   else (maxValue, maxIndex)) (Z.of_nat i))
      (Fin 0, 0%Z)
    = (Fin M, Z.of_nat k)
    /\ (forall j, (j < m)%nat -> val fd j <= M)
    /\ (forall j, (j < k)%nat -> val fd j < M)
    /\ ((k < m)%nat /\ val fd k = M \/ k = 0%nat /\ M = 0).
Proof.
  induction m as [|m IH]; intros Hm.
  - exists 0, 0%nat. split; [reflexivity|].
    split; [intros j Hj; lia|]. split; [intros j Hj; lia|].
    right. split; reflexivity.
  - destruct IH as [M [k [Hloop [Hle [Hlt Hat]]]]]; [lia|].
    change (rounds (S m) ?f ?a) with (f m (rounds m f a)).
    rewrite Hloop. cbv beta iota.
    rewrite get_val by lia.
    destruct (Rlt_dec M (val fd m)) as [Hup|Hkeep].
    + rewrite gt_fin_true by assumption.
      exists (val fd m), m. split; [reflexivity|].
      split; [|split].
      * intros j Hj. destruct (Nat.eq_dec j m) as [->|Hne]; [lra|].
        specialize (Hle j ltac:(lia)). lra.
      * intros j Hj. specialize (Hle j Hj). lra.
      * left. split; [lia|reflexivity].
    + rewrite gt_fin_false by lra.
      exists M, k. split; [reflexivity|].
      split; [|split].
      * intros j Hj. destruct (Nat.eq_dec j m) as [->|Hne]; [lra|].
        apply Hle. lia.
      * assumption.
      * destruct Hat as [[Hk HM]|Hz]; [left; split; [lia|assumption]|right; assumption].
Qed.

(** X30.  The provider's dominant frequency is the frequency of the first
    bin that holds the largest magnitude of the spectrum,
    [index / binCount * sampleRate / 2]: it is below the Nyquist frequency,
    and 0 on a silent spectrum.  A missing sample rate, or one of 0, is
    replaced by 44100. *)
Theorem provider_dominant_frequency (fd td : Uint8Array) (rate : R) :
  fd <> [] -> Forall uint8 fd -> 0 < rate ->
  exists k,
    (k < length fd)%nat
    /\ (forall j, (j < length fd)%nat -> val fd j <= val fd k)
    /\ (forall j, (j < k)%nat -> val fd j < val fd k)
    /\ AudioProvider.dominantFrequency (AudioProvider.analyze fd td (Some rate))
       = Fin (INR k / INR (length fd) * (rate / 2))
    /\ 0 <= INR k / INR (length fd) * (rate / 2) < rate / 2
    /\ (Forall (eq 0%Z) fd -> k = 0%nat)
    /\ AudioProvider.dominantFrequency (AudioProvider.analyze fd td None)
       = AudioProvider.dominantFrequency
           (AudioProvider.analyze fd td (Some 44100))
    /\ AudioProvider.dominantFrequency (AudioProvider.analyze fd td (Some 0))
       = AudioProvider.dominantFrequency
           (AudioProvider.analyze fd td (Some 44100)).
Proof.
  intros Hne Hu Hrate.
  pose proof (length_pos fd Hne) as Hn.
  destruct (loudest_bin_rounds fd (length fd) (le_n _))
    as [M [k [Hloop [Hle [Hlt Hat]]]]].
  assert (Hk : (k < length fd)%nat /\ val fd k = M).
  { destruct Hat as [Hat|[-> ->]]; [assumption|]. split; [assumption|].
    pose proof (val_uint8 fd 0 Hu). specialize (Hle 0%nat Hn). lra. }
  destruct Hk as [Hk HM]. subst M.
  exists k. split; [assumption|]. split; [assumption|]. split; [assumption|].
  assert (HnR : 0 < INR (length fd)) by (apply lt_0_INR; assumption).
  assert (Hfrac : 0 <= INR k / INR (length fd) < 1).
  { split; [apply div_nonneg; [apply pos_INR|assumption]|].
    apply (Rmult_lt_reg_r (INR (length fd))); [assumption|].
    unfold Rdiv. rewrite Rmult_assoc, Rinv_l by lra.
    apply lt_INR in Hk. lra. }
  split; [|split; [|split; [|split]]].
  - rewrite provider_dominant_field. rewrite for_array, Hloop. cbn [snd].
    destruct (Req_dec_T rate 0) as [H0|_]; [lra|].
    rewrite len_INR, <- INR_IZR_INZ.
    rewrite !div_fin by lra. reflexivity.
  - split; [apply Rmult_le_pos; lra|]. nra.
  - intros Hz. destruct k as [|k']; [reflexivity|exfalso].
    specialize (Hlt 0%nat ltac:(lia)).
    rewrite !(val_all fd 0) in Hlt by (assumption || lia). lra.
  - rewrite !provider_dominant_field.
    destruct (Req_dec_T 44100 0) as [H0|_]; [lra|reflexivity].
  - rewrite !provider_dominant_field.
    destruct (Req_dec_T 0 0) as [_|H0]; [|contradiction].
    destruct (Req_dec_T 44100 0) as [H0|_]; [lra|reflexivity].
Qed.

Lemma provider_dominant_frequency_witness :
  exists k,
    (k < 1024)%nat
    /\ AudioProvider.dominantFrequency
         (AudioProvider.analyze singleBin silentWaveform (Some 44100))
       = Fin (INR k / INR (length singleBin) * (44100 / 2)).
Proof.
  destruct (provider_dominant_frequency singleBin silentWaveform 44100)
    as [k (Hk & _ & _ & Hf & _)].
  - apply singleBin_nonempty.
  - apply singleBin_uint8.
  - lra.
  - exists k. split; [|exact Hf].
    replace 1024%nat with (length singleBin) by (vm_compute; reflexivity).
    exact Hk.
Defined.

(* ================================================================== *)
(** ** The time display *)

Section TimeDisplayProperties.
Import String.





End TimeDisplayProperties.
